(** * balance-mon: the balance and safe-nonce monitor of chain-mon

    A shallow embedding of [packages/chain-mon/src/balance-mon/service.ts]
    and of the JavaScript and ethers operations its two methods [init] and
    [main] rely on, followed by the properties of one polling tick.

    Layout: the JavaScript substrate first (numbers, values, completions,
    [JSON.parse], [parseInt]), then the ethers and prom-client operations the
    service calls, then the service itself, then the theorems. *)

From Stdlib Require Import ZArith List String Ascii Bool Lia.
From Stdlib Require Import DecimalString DecimalPos DecimalZ.
From Stdlib Require Import Strings.Byte.
Import ListNotations.

Set Warnings "-register-all".

Local Open Scope Z_scope.

(* ================================================================== *)
(** ** JavaScript numbers *)
(* ================================================================== *)

Module JsNumber.

(** The Number type: an IEEE-754 binary64 value.  A finite value is
    [(-1)^neg * m * 2^e]; the representation is canonical: [m] is odd, or
    [m = 0] and [e = 0].  Arithmetic on Numbers is not needed here, only
    the conversion of exact values (integers, decimal literals) to the
    Number nearest to them, which is integer arithmetic. *)
Inductive number : Type :=
| Finite (neg : bool) (m : Z) (e : Z)
| Infinity (neg : bool)
| NaN.

Definition emin : Z := -1074.
Definition emax : Z := 971.

(** Moves the factors two of a mantissa into the exponent. *)
Fixpoint odd_part (m : positive) (e : Z) : positive * Z :=
  match m with
  | xO m' => odd_part m' (e + 1)
  | _ => (m, e)
  end.

Definition canon (neg : bool) (m e : Z) : number :=
  match m with
  | Zpos p => let '(p', e') := odd_part p e in Finite neg (Zpos p') e'
  | _ => Finite neg 0 0
  end.

(** Nearest integer to [num / den], ties to the even one ([0 < den]). *)
Definition round_half_even (num den : Z) : Z :=
  let q := num / den in
  let r := num mod den in
  match 2 * r ?= den with
  | Lt => q
  | Gt => q + 1
  | Eq => if Z.even q then q else q + 1
  end.

(** [floor (log2 (p / q))] for [0 < p] and [0 < q]. *)
Definition floor_log2_ratio (p q : Z) : Z :=
  let k := Z.log2 p - Z.log2 q in
  let above := if 0 <=? k then q * 2 ^ k <=? p else q <=? p * 2 ^ (- k) in
  if above then k else k - 1.

(** The Number value for the rational [p / q] ([0 <= p], [0 < q]) with the
    given sign: round to nearest, ties to even, 53 bits of precision,
    gradual underflow below [2^-1022], overflow to infinity at [2^1024]. *)
Definition round_binary64 (neg : bool) (p q : Z) : number :=
  if p =? 0 then Finite neg 0 0
  else
    let e := Z.max (floor_log2_ratio p q - 52) emin in
    let m := if 0 <=? e then round_half_even p (q * 2 ^ e)
             else round_half_even (p * 2 ^ (- e)) q in
    if (emax <? e) || ((e =? emax) && (m =? 2 ^ 53)) then Infinity neg
    else canon neg m e.

(** The Number value for a mathematical integer. *)
Definition of_Z (n : Z) : number := round_binary64 (n <? 0) (Z.abs n) 1.

(** The Number value of the decimal literal [(-1)^neg * m * 10^e]. *)
Definition of_decimal (neg : bool) (m e : Z) : number :=
  if 0 <=? e then round_binary64 neg (m * 10 ^ e) 1
  else round_binary64 neg m (10 ^ (- e)).

(** The integer a Number denotes, when it denotes one. *)
Definition to_Z (x : number) : option Z :=
  match x with
  | Finite neg m e =>
      let s := if neg then -1 else 1 in
      if 0 <=? e then Some (s * (m * 2 ^ e))
      else if m mod 2 ^ (- e) =? 0 then Some (s * (m / 2 ^ (- e)))
      else None
  | _ => None
  end.

(** The mantissa [m] at exponent [e] stands for the integer [n]. *)
Definition denotes (m e n : Z) : Prop :=
  if 0 <=? e then n = m * 2 ^ e else m = n * 2 ^ (- e).

(** ToBoolean on numbers: zeros and NaN are falsy. *)
Definition truthy (x : number) : bool :=
  match x with
  | Finite _ m _ => negb (m =? 0)
  | Infinity _ => true
  | NaN => false
  end.

Definition eqb (x y : number) : bool :=
  match x, y with
  | Finite n1 m1 e1, Finite n2 m2 e2 =>
      Bool.eqb n1 n2 && (m1 =? m2) && (e1 =? e2)
  | Infinity n1, Infinity n2 => Bool.eqb n1 n2
  | NaN, NaN => true
  | _, _ => false
  end.

End JsNumber.

(* ================================================================== *)
(** ** JavaScript values and completions *)
(* ================================================================== *)

Module Js.

Import JsNumber.

(** The language values the service can meet: what [JSON.parse] builds,
    and [undefined] for an absent property.  A string is a byte string
    holding UTF-8 text.  An object keeps its members in source order; a
    later member shadows an earlier one of the same name, as [JSON.parse]
    overwrites the property.  Values are immutable trees: the service
    never hands the accounts array or one of its records to a
    collaborator, only property values, so nothing it holds is aliased. *)
Inductive value : Type :=
| Undefined
| Null
| Bool (b : bool)
| Num (n : number)
| Str (s : string)
| Arr (elems : list value)
| Obj (members : list (string * value)).

(** What a [throw] carries. *)
Inductive exn : Type :=
| TypeError
| SyntaxError
| ArgumentError            (* ethers' logger.throwArgumentError *)
| ProviderError (code : string).   (* whatever the RPC provider rejects with *)

(** Completion of an evaluation: a value, or an abrupt [throw]. *)
Inductive completion (A : Type) : Type :=
| Return (a : A)
| Throw (e : exn).

Arguments Return {A} a.
Arguments Throw {A} e.

(** ToBoolean. *)
Definition ToBoolean (v : value) : bool :=
  match v with
  | Undefined | Null => false
  | Bool b => b
  | Num n => truthy n
  | Str s => match s with EmptyString => false | String _ _ => true end
  | Arr _ | Obj _ => true
  end.

(** The own property [k] of an object built by [JSON.parse]. *)
Fixpoint own_property (k : string) (ms : list (string * value)) : option value :=
  match ms with
  | [] => None
  | (k', v) :: ms' =>
      match own_property k ms' with
      | Some v' => Some v'
      | None => if String.eqb k k' then Some v else None
      end
  end.

(** The property [k] of a value that has properties, for a name [k]
    that no built-in prototype defines (the service reads [address],
    [nickname] and [safe] only): the own property of an object,
    [undefined] when it has none and on every other value. *)
Definition prop (v : value) (k : string) : value :=
  match v with
  | Obj ms => match own_property k ms with Some x => x | None => Undefined end
  | _ => Undefined
  end.

(** RequireObjectCoercible: every value but [undefined] and [null]. *)
Definition coercible (v : value) : bool :=
  match v with
  | Undefined | Null => false
  | _ => true
  end.

(** Property read [v.k]: a [TypeError] on [undefined] and [null]. *)
Definition Get (v : value) (k : string) : completion value :=
  if coercible v then Return (prop v k) else Throw TypeError.

Definition is_continuation (c : ascii) : bool :=
  let n := N_of_ascii c in (128 <=? n)%N && (n <? 192)%N.

(** The code points of a string, each as a string of its own: a byte that
    is not a UTF-8 continuation byte starts a new one. *)
Fixpoint code_points (s : string) : list string :=
  match s with
  | EmptyString => []
  | String c r =>
      let starts_inside :=
        match r with
        | String c' _ => is_continuation c'
        | EmptyString => false
        end in
      match code_points r with
      | g :: gs =>
          if starts_inside then String c g :: gs
          else String c EmptyString :: g :: gs
      | [] => [String c EmptyString]
      end
  end.

(** The items a [for ... of] loop visits: the elements of an array, the
    code points of a string; no other value here is iterable. *)
Definition iterate (v : value) : completion (list value) :=
  match v with
  | Arr elems => Return elems
  | Str s => Return (map Str (code_points s))
  | _ => Throw TypeError
  end.

(** Structural equality of values. *)
Fixpoint value_eqb (x y : value) {struct x} : bool :=
  match x, y with
  | Undefined, Undefined => true
  | Null, Null => true
  | Bool a, Bool b => Bool.eqb a b
  | Num a, Num b => JsNumber.eqb a b
  | Str a, Str b => String.eqb a b
  | Arr xs, Arr ys =>
      (fix go (xs ys : list value) {struct xs} : bool :=
         match xs, ys with
         | [], [] => true
         | x' :: xs', y' :: ys' => value_eqb x' y' && go xs' ys'
         | _, _ => false
         end) xs ys
  | Obj xs, Obj ys =>
      (fix go (xs ys : list (string * value)) {struct xs} : bool :=
         match xs, ys with
         | [], [] => true
         | (k, x') :: xs', (k', y') :: ys' =>
             String.eqb k k' && value_eqb x' y' && go xs' ys'
         | _, _ => false
         end) xs ys
  | _, _ => false
  end.

End Js.

(* ================================================================== *)
(** ** JSON.parse *)
(* ================================================================== *)

Module Json.

Import JsNumber Js.

Definition dquote : ascii := ascii_of_nat 34.
Definition backslash : ascii := ascii_of_nat 92.

(** Result of a parsing function: a value and the unread input, a syntax
    error, or the recursion budget exhausted. *)
Inductive parse_result (A : Type) : Type :=
| POk (a : A) (rest : string)
| PSyntaxError
| POutOfFuel.

Arguments POk {A} a rest.
Arguments PSyntaxError {A}.
Arguments POutOfFuel {A}.

(** JSON white space: tab, line feed, carriage return, space. *)
Definition is_ws (c : ascii) : bool :=
  match N_of_ascii c with
  | 9%N | 10%N | 13%N | 32%N => true
  | _ => false
  end.

Fixpoint skip_ws (s : string) : string :=
  match s with
  | String c r => if is_ws c then skip_ws r else s
  | EmptyString => s
  end.

Definition digit_of (c : ascii) : option Z :=
  let n := Z.of_N (N_of_ascii c) in
  if (48 <=? n) && (n <=? 57) then Some (n - 48) else None.

Definition hex_of (c : ascii) : option Z :=
  let n := Z.of_N (N_of_ascii c) in
  if (48 <=? n) && (n <=? 57) then Some (n - 48)
  else if (97 <=? n) && (n <=? 102) then Some (n - 87)
  else if (65 <=? n) && (n <=? 70) then Some (n - 55)
  else None.

(** Reads a run of decimal digits onto [acc]; also counts them. *)
Fixpoint digits (s : string) (acc cnt : Z) : Z * Z * string :=
  match s with
  | String c r =>
      match digit_of c with
      | Some d => digits r (acc * 10 + d) (cnt + 1)
      | None => (acc, cnt, s)
      end
  | EmptyString => (acc, cnt, s)
  end.

Fixpoint strip_prefix (p s : string) : option string :=
  match p, s with
  | EmptyString, _ => Some s
  | String a p', String b s' => if Ascii.eqb a b then strip_prefix p' s' else None
  | String _ _, EmptyString => None
  end.

(** The integer part of a number: a lone [0], or a digit run that does
    not start with [0]. *)
Definition int_part (s : string) : option (Z * string) :=
  match s with
  | String c r =>
      match digit_of c with
      | Some d => if d =? 0 then Some (0, r)
                  else let '(m, _, r') := digits r d 0 in Some (m, r')
      | None => None
      end
  | EmptyString => None
  end.

(** The optional fraction: extends the mantissa, returns the digit count. *)
Definition frac_part (m : Z) (s : string) : option (Z * Z * string) :=
  match strip_prefix "." s with
  | Some r =>
      let '(m', cnt, r') := digits r m 0 in
      if cnt =? 0 then None else Some (m', cnt, r')
  | None => Some (m, 0, s)
  end.

(** The optional exponent. *)
Definition exp_part (s : string) : option (Z * string) :=
  let after_e :=
    match strip_prefix "e" s with
    | Some r => Some r
    | None => strip_prefix "E" s
    end in
  match after_e with
  | None => Some (0, s)
  | Some r =>
      let '(neg, r1) :=
        match strip_prefix "+" r with
        | Some r' => (false, r')
        | None =>
            match strip_prefix "-" r with
            | Some r' => (true, r')
            | None => (false, r)
            end
        end in
      let '(x, cnt, r2) := digits r1 0 0 in
      if cnt =? 0 then None else Some (if neg then - x else x, r2)
  end.

(** A JSON number, converted to its Number value. *)
Definition parse_number (s : string) : parse_result number :=
  let '(neg, s1) :=
    match strip_prefix "-" s with
    | Some r => (true, r)
    | None => (false, s)
    end in
  match int_part s1 with
  | None => PSyntaxError
  | Some (m, s2) =>
      match frac_part m s2 with
      | None => PSyntaxError
      | Some (m', fcnt, s3) =>
          match exp_part s3 with
          | None => PSyntaxError
          | Some (x, s4) => POk (of_decimal neg m' (x - fcnt)) s4
          end
      end
  end.

(** One character of a string literal: a byte of the text as it stands,
    or the UTF-16 code unit of a [\uXXXX] escape. *)
Inductive str_item : Type :=
| Raw (c : ascii)
| Esc (u : Z).

Definition hex4 (a b c d : ascii) : option Z :=
  match hex_of a, hex_of b, hex_of c, hex_of d with
  | Some x, Some y, Some z, Some w => Some (((x * 16 + y) * 16 + z) * 16 + w)
  | _, _, _, _ => None
  end.

Definition simple_escape (e : ascii) : option ascii :=
  match e with
  | "/"%char => Some "/"%char
  | "b"%char => Some (ascii_of_nat 8)
  | "f"%char => Some (ascii_of_nat 12)
  | "n"%char => Some (ascii_of_nat 10)
  | "r"%char => Some (ascii_of_nat 13)
  | "t"%char => Some (ascii_of_nat 9)
  | _ => if Ascii.eqb e dquote then Some dquote
         else if Ascii.eqb e backslash then Some backslash
         else None
  end.

(** The body of a string literal, after its opening quote. *)
Fixpoint string_body (s : string) (acc : list str_item) : parse_result (list str_item) :=
  match s with
  | EmptyString => PSyntaxError
  | String c r =>
      if Ascii.eqb c dquote then POk (rev acc) r
      else if Ascii.eqb c backslash then
        match r with
        | String e r1 =>
            if Ascii.eqb e "u" then
              match r1 with
              | String h1 (String h2 (String h3 (String h4 r2))) =>
                  match hex4 h1 h2 h3 h4 with
                  | Some u => string_body r2 (Esc u :: acc)
                  | None => PSyntaxError
                  end
              | _ => PSyntaxError
              end
            else
              match simple_escape e with
              | Some x => string_body r1 (Raw x :: acc)
              | None => PSyntaxError
              end
        | EmptyString => PSyntaxError
        end
      else if (N_of_ascii c <? 32)%N then PSyntaxError
      else string_body r (Raw c :: acc)
  end.

Definition byte_of (n : Z) : ascii := ascii_of_N (Z.to_N n).

(** UTF-8 encoding of a code point (a lone surrogate is encoded like any
    other three-byte code point). *)
Definition utf8 (cp : Z) : string :=
  if cp <? 128 then String (byte_of cp) EmptyString
  else if cp <? 2048 then
    String (byte_of (192 + cp / 64)) (String (byte_of (128 + cp mod 64)) EmptyString)
  else if cp <? 65536 then
    String (byte_of (224 + cp / 4096))
      (String (byte_of (128 + (cp / 64) mod 64))
         (String (byte_of (128 + cp mod 64)) EmptyString))
  else
    String (byte_of (240 + cp / 262144))
      (String (byte_of (128 + (cp / 4096) mod 64))
         (String (byte_of (128 + (cp / 64) mod 64))
            (String (byte_of (128 + cp mod 64)) EmptyString))).

Definition is_high (u : Z) : bool := (55296 <=? u) && (u <=? 56319).
Definition is_low (u : Z) : bool := (56320 <=? u) && (u <=? 57343).

(** The string a literal denotes: escaped surrogate pairs are joined. *)
Fixpoint decode (l : list str_item) : string :=
  match l with
  | [] => EmptyString
  | Raw c :: l' => String c (decode l')
  | Esc hi :: l' =>
      match l' with
      | Esc lo :: l'' =>
          if is_high hi && is_low lo
          then utf8 (65536 + (hi - 55296) * 1024 + (lo - 56320)) ++ decode l''
          else utf8 hi ++ decode l'
      | _ => utf8 hi ++ decode l'
      end
  end.

Definition parse_string (s : string) : parse_result string :=
  match string_body s [] with
  | POk items rest => POk (decode items) rest
  | PSyntaxError => PSyntaxError
  | POutOfFuel => POutOfFuel
  end.

(** One JSON value, leading white space skipped. *)
Fixpoint parse_value (fuel : nat) (s : string) : parse_result value :=
  match fuel with
  | O => POutOfFuel
  | S fuel' =>
      match skip_ws s with
      | EmptyString => PSyntaxError
      | String c r =>
          if Ascii.eqb c dquote then
            match parse_string r with
            | POk x rest => POk (Str x) rest
            | PSyntaxError => PSyntaxError
            | POutOfFuel => POutOfFuel
            end
          else if Ascii.eqb c "[" then
            match strip_prefix "]" (skip_ws r) with
            | Some r' => POk (Arr []) r'
            | None => parse_elements fuel' (skip_ws r) []
            end
          else if Ascii.eqb c "{" then
            match strip_prefix "}" (skip_ws r) with
            | Some r' => POk (Obj []) r'
            | None => parse_members fuel' (skip_ws r) []
            end
          else if Ascii.eqb c "t" then
            match strip_prefix "rue" r with
            | Some rest => POk (Bool true) rest
            | None => PSyntaxError
            end
          else if Ascii.eqb c "f" then
            match strip_prefix "alse" r with
            | Some rest => POk (Bool false) rest
            | None => PSyntaxError
            end
          else if Ascii.eqb c "n" then
            match strip_prefix "ull" r with
            | Some rest => POk Null rest
            | None => PSyntaxError
            end
          else
            match parse_number (String c r) with
            | POk n rest => POk (Num n) rest
            | PSyntaxError => PSyntaxError
            | POutOfFuel => POutOfFuel
            end
      end
  end

with parse_elements (fuel : nat) (s : string) (acc : list value) : parse_result value :=
  match fuel with
  | O => POutOfFuel
  | S fuel' =>
      match parse_value fuel' s with
      | POk v r =>
          match strip_prefix "," (skip_ws r) with
          | Some r' => parse_elements fuel' r' (v :: acc)
          | None =>
              match strip_prefix "]" (skip_ws r) with
              | Some r' => POk (Arr (rev (v :: acc))) r'
              | None => PSyntaxError
              end
          end
      | PSyntaxError => PSyntaxError
      | POutOfFuel => POutOfFuel
      end
  end

with parse_members (fuel : nat) (s : string) (acc : list (string * value)) : parse_result value :=
  match fuel with
  | O => POutOfFuel
  | S fuel' =>
      match skip_ws s with
      | String c r =>
          if Ascii.eqb c dquote then
            match parse_string r with
            | POk k r1 =>
                match strip_prefix ":" (skip_ws r1) with
                | Some r2 =>
                    match parse_value fuel' r2 with
                    | POk v r3 =>
                        match strip_prefix "," (skip_ws r3) with
                        | Some r4 => parse_members fuel' r4 ((k, v) :: acc)
                        | None =>
                            match strip_prefix "}" (skip_ws r3) with
                            | Some r4 => POk (Obj (rev ((k, v) :: acc))) r4
                            | None => PSyntaxError
                            end
                        end
                    | PSyntaxError => PSyntaxError
                    | POutOfFuel => POutOfFuel
                    end
                | None => PSyntaxError
                end
            | PSyntaxError => PSyntaxError
            | POutOfFuel => POutOfFuel
            end
          else PSyntaxError
      | EmptyString => PSyntaxError
      end
  end.

(** [JSON.parse(text)]: one value, white space around it, nothing else;
    a [SyntaxError] otherwise.  The budget is never the limit: see
    [parse_value_fuel]. *)
Definition parse (text : string) : completion value :=
  match parse_value (2 * String.length text + 1) text with
  | POk v rest =>
      match skip_ws rest with
      | EmptyString => Return v
      | String _ _ => Throw SyntaxError
      end
  | _ => Throw SyntaxError
  end.

(** Writes a JSON text with apostrophes for its double quotes. *)
Fixpoint quoted (s : string) : string :=
  match s with
  | EmptyString => EmptyString
  | String c r => String (if Ascii.eqb c "'"%char then dquote else c) (quoted r)
  end.

End Json.

(* ================================================================== *)
(** ** parseInt, and the ethers operations *)
(* ================================================================== *)

Module Ethers.

Import JsNumber Js.

(** An [ethers.BigNumber] is an unbounded integer. *)
Definition BigNumber : Type := Z.

(** [b.toString()]: the decimal digits, a minus sign before a negative. *)
Definition BigNumber_toString (b : BigNumber) : string :=
  NilZero.string_of_int (Z.to_int b).

(** The unsigned big-endian integer of a byte string. *)
Definition be_uint (data : list byte) : Z :=
  fold_left (fun acc b => acc * 256 + Z.of_N (Byte.to_N b)) data 0.

(** [BigNumber.from(result)] for the result of a provider call.  An
    ethers provider hands the returned bytes over as the hex string
    [0x..] of its [hexlify], which [BigNumber.from] reads as an unsigned
    big-endian integer, and rejects with an argument error when it has no
    digit at all (no byte was returned). *)
Definition BigNumber_from (data : list byte) : completion BigNumber :=
  match data with
  | [] => Throw ArgumentError
  | _ :: _ => Return (be_uint data)
  end.

(** StrWhiteSpaceChar, as far as one byte encodes it. *)
Definition is_str_ws (c : ascii) : bool :=
  match N_of_ascii c with
  | 9%N | 10%N | 11%N | 12%N | 13%N | 32%N => true
  | _ => false
  end.

Fixpoint trim_start (s : string) : string :=
  match s with
  | String c r => if is_str_ws c then trim_start r else s
  | EmptyString => s
  end.

Definition is_digit (c : ascii) : bool :=
  let n := N_of_ascii c in (48 <=? n)%N && (n <=? 57)%N.

(** The longest prefix of decimal digits. *)
Fixpoint digit_prefix (s : string) : string :=
  match s with
  | String c r => if is_digit c then String c (digit_prefix r) else EmptyString
  | EmptyString => EmptyString
  end.

(** [parseInt(s, 10)]: white space, a sign, then the longest run of
    digits, read as a mathematical integer and rounded to its Number
    value; [NaN] when there is no digit.  (The language lets an
    implementation read the digits after the twentieth as zeros; this is
    the exact reading, which is what V8 does.) *)
Definition parseInt (s : string) : number :=
  let s1 := trim_start s in
  let '(neg, s2) :=
    match s1 with
    | String "-" r => (true, r)
    | String "+" r => (false, r)
    | _ => (false, s1)
    end in
  match digit_prefix s2 with
  | EmptyString => NaN
  | z =>
      match NilEmpty.uint_of_string z with
      | Some d => round_binary64 neg (Z.of_uint d) 1
      | None => NaN
      end
  end.

End Ethers.

(* ================================================================== *)
(** ** The service *)
(* ================================================================== *)

Module BalanceMon.

Import JsNumber Js Ethers.

Local Open Scope string_scope.

(** The argument of [rpc.call]. *)
Record TransactionRequest : Type := { to : value; data : string }.

(** A field of a log record: a value, or a caught error. *)
Inductive logged : Type :=
| LogValue (v : value)
| LogError (e : exn).

(** The label sets of the metrics: [(address, nickname)] for the two
    gauges, [(section, name)] for the counter. *)
Definition account_labels : Type := (value * value)%type.
Definition error_labels : Type := (string * string)%type.

Definition account_labels_eqb (a b : account_labels) : bool :=
  value_eqb (fst a) (fst b) && value_eqb (snd a) (snd b).

Definition error_labels_eqb (a b : error_labels) : bool :=
  String.eqb (fst a) (fst b) && String.eqb (snd a) (snd b).

(** A gauge holds the last value set for each label set; a counter holds
    a count for each label set.  A series is looked up here under the
    label values it was set with.  The registry names a series by the
    text of its label values, so the same values name the same series
    there as here; no statement below rests on two different label sets
    being two series. *)
Definition Gauge : Type := account_labels -> option number.
Definition Counter : Type := error_labels -> Z.

Definition gauge_set (g : Gauge) (l : account_labels) (v : number) : Gauge :=
  fun l' => if account_labels_eqb l l' then Some v else g l'.

Definition counter_inc (c : Counter) (l : error_labels) : Counter :=
  fun l' => if error_labels_eqb l l' then c l' + 1 else c l'.

(** [BalanceMonMetrics]. *)
Record Metrics : Type := {
  balances : Gauge;
  safeNonces : Gauge;
  unexpectedRpcErrors : Counter
}.

(** What a run does to its collaborators, in order. *)
Inductive event : Type :=
| RpcGetBalance (address : value) (res : completion BigNumber)
| RpcCall (tx : TransactionRequest) (res : completion (list byte))
| LoggerInfo (msg : string) (fields : list (string * logged))
| BalancesSet (labels : account_labels) (v : number)
| SafeNoncesSet (labels : account_labels) (v : number)
| UnexpectedRpcErrorsInc (labels : error_labels).

Section Service.

(** The network behind the provider: any state, any answers. *)
Variable World : Type.

(** The part of [Provider] the service uses.  An operation answers or
    rejects, and may change the world; what it does may depend on the
    world in any way.  [getBalance] answers with a [BigNumber], [call]
    with the bytes the contract returned. *)
Record Provider : Type := {
  getBalance : value -> World -> completion BigNumber * World;
  call : TransactionRequest -> World -> completion (list byte) * World
}.

Variable rpc : Provider.

(** The service object and what it holds on to. *)
Record Machine : Type := {
  options_accounts : string;     (* this.options.accounts *)
  state_accounts : value;        (* this.state.accounts *)
  metrics : Metrics;             (* this.metrics *)
  world : World                  (* behind this.options.rpc *)
}.

(** A method body: from a machine to a completion, the machine it
    leaves, and the events it emitted. *)
Definition M (A : Type) : Type := Machine -> completion A * Machine * list event.

Definition ret {A} (a : A) : M A := fun m => (Return a, m, []).

Definition bind {A B} (c : M A) (k : A -> M B) : M B :=
  fun m =>
    match c m with
    | (Return a, m1, ev1) =>
        let '(r, m2, ev2) := k a m1 in (r, m2, (ev1 ++ ev2)%list)
    | (Throw e, m1, ev1) => (Throw e, m1, ev1)
    end.

Notation "x <- c ;; k" := (bind c (fun x => k))
  (at level 61, c at next level, right associativity).
Notation "c ;; k" := (bind c (fun _ => k))
  (at level 61, right associativity).

(** [try { body } catch (err) { handler }]: what the body did before it
    threw stays done. *)
Definition try_catch (body : M unit) (handler : exn -> M unit) : M unit :=
  fun m =>
    match body m with
    | (Return a, m1, ev1) => (Return a, m1, ev1)
    | (Throw e, m1, ev1) =>
        let '(r, m2, ev2) := handler e m1 in (r, m2, (ev1 ++ ev2)%list)
    end.

Definition lift {A} (c : completion A) : M A :=
  fun m => (c, m, []).

Fixpoint for_of (items : list value) (body : value -> M unit) : M unit :=
  match items with
  | [] => ret tt
  | x :: items' => body x ;; for_of items' body
  end.

(** *** Primitive effects *)

Definition emit (e : event) : M unit := fun m => (Return tt, m, [e]).

Definition with_metrics (f : Metrics -> Metrics) : M unit :=
  fun m =>
    (Return tt,
     {| options_accounts := options_accounts m;
        state_accounts := state_accounts m;
        metrics := f (metrics m);
        world := world m |}, []).

(** [await this.options.rpc.getBalance(address)] *)
Definition rpc_getBalance (address : value) : M BigNumber :=
  fun m =>
    let '(res, w) := getBalance rpc address (world m) in
    (res,
     {| options_accounts := options_accounts m;
        state_accounts := state_accounts m;
        metrics := metrics m;
        world := w |},
     [RpcGetBalance address res]).

(** [await this.options.rpc.call(tx)] *)
Definition rpc_call (tx : TransactionRequest) : M (list byte) :=
  fun m =>
    let '(res, w) := call rpc tx (world m) in
    (res,
     {| options_accounts := options_accounts m;
        state_accounts := state_accounts m;
        metrics := metrics m;
        world := w |},
     [RpcCall tx res]).

(** [this.logger.info(msg, fields)] *)
Definition logger_info (msg : string) (fields : list (string * logged)) : M unit :=
  emit (LoggerInfo msg fields).

(** [this.metrics.balances.set(labels, v)] *)
Definition balances_set (labels : account_labels) (v : number) : M unit :=
  with_metrics (fun x =>
    {| balances := gauge_set (balances x) labels v;
       safeNonces := safeNonces x;
       unexpectedRpcErrors := unexpectedRpcErrors x |}) ;;
  emit (BalancesSet labels v).

(** [this.metrics.safeNonces.set(labels, v)] *)
Definition safeNonces_set (labels : account_labels) (v : number) : M unit :=
  with_metrics (fun x =>
    {| balances := balances x;
       safeNonces := gauge_set (safeNonces x) labels v;
       unexpectedRpcErrors := unexpectedRpcErrors x |}) ;;
  emit (SafeNoncesSet labels v).

(** [this.metrics.unexpectedRpcErrors.inc(labels)] *)
Definition unexpectedRpcErrors_inc (labels : error_labels) : M unit :=
  with_metrics (fun x =>
    {| balances := balances x;
       safeNonces := safeNonces x;
       unexpectedRpcErrors := counter_inc (unexpectedRpcErrors x) labels |}) ;;
  emit (UnexpectedRpcErrorsInc labels).

(** *** init *)

(** [this.state.accounts = JSON.parse(this.options.accounts)] *)
Definition init : M unit :=
  fun m =>
    match Json.parse (options_accounts m) with
    | Return v =>
        (Return tt,
         {| options_accounts := options_accounts m;
            state_accounts := v;
            metrics := metrics m;
            world := world m |}, [])
    | Throw e => (Throw e, m, [])
    end.

(** *** main *)

(** The selector of [nonce()] in the safe contract. *)
Definition nonce_selector : string := "0xaffed0e0".

(** The first [try] of the loop body: the balance of the account. *)
Definition balance_step (account : value) : M unit :=
  try_catch
    (address <- lift (Get account "address") ;;
     balance <- rpc_getBalance address ;;
     address1 <- lift (Get account "address") ;;
     nickname1 <- lift (Get account "nickname") ;;
     logger_info "got balance"
       [("address", LogValue address1);
        ("nickname", LogValue nickname1);
        ("balance", LogValue (Str (BigNumber_toString balance)))] ;;
     address2 <- lift (Get account "address") ;;
     nickname2 <- lift (Get account "nickname") ;;
     balances_set (address2, nickname2) (parseInt (BigNumber_toString balance)))
    (fun err =>
       logger_info "got unexpected RPC error"
         [("section", LogValue (Str "balances"));
          ("name", LogValue (Str "getBalance"));
          ("err", LogError err)] ;;
       unexpectedRpcErrors_inc ("balances", "getBalance")).

(** The second [try], inside [if (account.safe)]: the nonce of the safe. *)
Definition nonce_step (account : value) : M unit :=
  try_catch
    (target <- lift (Get account "address") ;;
     result <- rpc_call {| to := target; data := nonce_selector |} ;;
     safeNonce <- lift (BigNumber_from result) ;;
     address1 <- lift (Get account "address") ;;
     nickname1 <- lift (Get account "nickname") ;;
     logger_info "got nonce"
       [("address", LogValue address1);
        ("nickname", LogValue nickname1);
        ("nonce", LogValue (Str (BigNumber_toString safeNonce)))] ;;
     address2 <- lift (Get account "address") ;;
     nickname2 <- lift (Get account "nickname") ;;
     safeNonces_set (address2, nickname2) (parseInt (BigNumber_toString safeNonce)))
    (fun err =>
       logger_info "got unexpected RPC error"
         [("section", LogValue (Str "safeNonce"));
          ("name", LogValue (Str "getSafeNonce"));
          ("err", LogError err)] ;;
       unexpectedRpcErrors_inc ("safeNonce", "getSafeNonce")).

(** The body of the loop, for one account. *)
Definition account_step (account : value) : M unit :=
  balance_step account ;;
  safe <- lift (Get account "safe") ;;
  if ToBoolean safe then nonce_step account else ret tt.

(** [for (const account of this.state.accounts) { ... }] *)
Definition main : M unit :=
  fun m =>
    (items <- lift (iterate (state_accounts m)) ;;
     for_of items account_step) m.

(** *** The scheduler *)

(** Modelled from the spec: the run loop of the base class
    [BaseServiceV2] (package common-ts) is not part of the sources.  By
    the spec's state machine, initialization either fails, which is fatal
    and schedules nothing, or is followed by tick after tick; here the
    first [n] of them. *)
Fixpoint ticks (n : nat) : M unit :=
  match n with
  | O => ret tt
  | S n' => try_catch main (fun _ => ret tt) ;; ticks n'
  end.

(** Modelled from the spec: [run] of the same base class, which is
    [init] and then, when [init] returned, the ticks. *)
Definition run (n : nat) : M unit := init ;; ticks n.

End Service.

Arguments getBalance {World} p address w.
Arguments call {World} p tx w.
Arguments options_accounts {World} m.
Arguments state_accounts {World} m.
Arguments metrics {World} m.
Arguments world {World} m.
Arguments ret {World A} a m.
Arguments bind {World A B} c k m.
Arguments try_catch {World} body handler m.
Arguments lift {World A} c m.
Arguments for_of {World} items body m.
Arguments emit {World} e m.
Arguments with_metrics {World} f m.
Arguments rpc_getBalance {World} rpc address m.
Arguments rpc_call {World} rpc tx m.
Arguments logger_info {World} msg fields m.
Arguments balances_set {World} labels v m.
Arguments safeNonces_set {World} labels v m.
Arguments unexpectedRpcErrors_inc {World} labels m.
Arguments init {World} m.
Arguments balance_step {World} rpc account m.
Arguments nonce_step {World} rpc account m.
Arguments account_step {World} rpc account m.
Arguments main {World} rpc m.
Arguments ticks {World} rpc n m.
Arguments run {World} rpc n m.

(** *** Reading accounts and traces *)

(** The three parts of what a method body yields. *)
Definition outcome {World A} (x : completion A * Machine World * list event)
  : completion A := fst (fst x).
Definition final {World A} (x : completion A * Machine World * list event)
  : Machine World := snd (fst x).
Definition emitted {World A} (x : completion A * Machine World * list event)
  : list event := snd x.

Definition address_of (account : value) : value := prop account "address".
Definition nickname_of (account : value) : value := prop account "nickname".
Definition is_safe (account : value) : bool := ToBoolean (prop account "safe").

Definition labels_of (account : value) : account_labels :=
  (address_of account, nickname_of account).

Definition nonce_request (account : value) : TransactionRequest :=
  {| to := address_of account; data := nonce_selector |}.

Definition balances_error : error_labels := ("balances", "getBalance").
Definition safeNonce_error : error_labels := ("safeNonce", "getSafeNonce").

(** A request to the provider, whatever the answer. *)
Inductive request : Type :=
| GetBalanceRequest (address : value)
| CallRequest (tx : TransactionRequest).

Fixpoint requests (evs : list event) : list request :=
  match evs with
  | [] => []
  | RpcGetBalance a _ :: evs' => GetBalanceRequest a :: requests evs'
  | RpcCall tx _ :: evs' => CallRequest tx :: requests evs'
  | _ :: evs' => requests evs'
  end.

(** The requests the loop body owes an account. *)
Definition requests_for (account : value) : list request :=
  GetBalanceRequest (address_of account)
  :: (if is_safe account then [CallRequest (nonce_request account)] else []).

(** The events that belong to the balance step: the read, the gauge
    write, the count of a failed read. *)
Definition is_balance_event (e : event) : bool :=
  match e with
  | RpcGetBalance _ _ | BalancesSet _ _ => true
  | UnexpectedRpcErrorsInc l => error_labels_eqb l balances_error
  | _ => false
  end.

(** The events that belong to the nonce step. *)
Definition is_nonce_event (e : event) : bool :=
  match e with
  | RpcCall _ _ | SafeNoncesSet _ _ => true
  | UnexpectedRpcErrorsInc l => error_labels_eqb l safeNonce_error
  | _ => false
  end.

Definition is_gauge_write (e : event) : bool :=
  match e with
  | BalancesSet _ _ | SafeNoncesSet _ _ => true
  | _ => false
  end.

(** What follows a balance read that answered [r]. *)
Definition balance_outcome (account : value) (r : completion BigNumber) : event :=
  match r with
  | Return b => BalancesSet (labels_of account) (JsNumber.of_Z b)
  | Throw _ => UnexpectedRpcErrorsInc balances_error
  end.

(** What follows a nonce call that answered [r]. *)
Definition nonce_outcome (account : value) (r : completion (list byte)) : event :=
  match r with
  | Return ((_ :: _) as bytes) => SafeNoncesSet (labels_of account) (JsNumber.of_Z (be_uint bytes))
  | _ => UnexpectedRpcErrorsInc safeNonce_error
  end.

Definition is_balances_set (e : event) : bool :=
  match e with
  | BalancesSet _ _ => true
  | _ => false
  end.

Definition is_safeNonces_set (e : event) : bool :=
  match e with
  | SafeNoncesSet _ _ => true
  | _ => false
  end.

(** The nonce fetch as a whole: the call, then [BigNumber.from]. *)
Definition nonce_fetch (r : completion (list byte)) : completion BigNumber :=
  match r with
  | Return bytes => BigNumber_from bytes
  | Throw e => Throw e
  end.

Definition failed {A} (r : completion A) : bool :=
  match r with
  | Return _ => false
  | Throw _ => true
  end.

(** A balance read answered [r], and what follows it. *)
Definition balance_round (ar : value * completion BigNumber) : list event :=
  [RpcGetBalance (address_of (fst ar)) (snd ar); balance_outcome (fst ar) (snd ar)].

(** A nonce call answered [r], and what follows it. *)
Definition nonce_round (ar : value * completion (list byte)) : list event :=
  [RpcCall (nonce_request (fst ar)) (snd ar); nonce_outcome (fst ar) (snd ar)].

(** The declared shape of [BalanceMonState.accounts]: an array of
    [{ address: string; nickname: string; safe: boolean }]. *)
Definition well_formed_account (account : value) : bool :=
  match account with
  | Obj _ =>
      match prop account "address", prop account "nickname", prop account "safe" with
      | Str _, Str _, Bool _ => true
      | _, _, _ => false
      end
  | _ => false
  end.

Definition well_formed_accounts (v : value) : bool :=
  match v with
  | Arr elems => forallb well_formed_account elems
  | _ => false
  end.

(** Truncation to the integers a Number can hold, in the words of the
    specification: the bits below the 53 leading ones are dropped, so the
    magnitude never grows.  (The service does not compute this; it is
    here to be compared with what [parseInt] yields.) *)
Definition truncate_to_number (b : Z) : Z :=
  let e := Z.max 0 (Z.log2 (Z.abs b) - 52) in
  Z.sgn b * (Z.abs b / 2 ^ e * 2 ^ e).

(** A configuration text that does not denote such an array. *)
Definition malformed (text : string) : bool :=
  match Json.parse text with
  | Return v => negb (well_formed_accounts v)
  | Throw _ => true
  end.

End BalanceMon.

(* ================================================================== *)
(** ** Concrete collaborators and machines *)
(* ================================================================== *)

Module Scenario.

Import JsNumber Js Ethers BalanceMon.

Local Open Scope string_scope.

(** A provider that counts the requests it has served and answers every
    balance read with [bal] and every call with [res]. *)
Definition scripted (bal : completion BigNumber) (res : completion (list byte))
  : Provider nat :=
  {| getBalance := fun _ w => (bal, S w);
     call := fun _ w => (res, S w) |}.

Definition no_metrics : Metrics :=
  {| balances := fun _ => None;
     safeNonces := fun _ => None;
     unexpectedRpcErrors := fun _ => 0 |}.

(** The service before [init]: options set, state empty. *)
Definition fresh (text : string) : Machine nat :=
  {| options_accounts := text;
     state_accounts := Undefined;
     metrics := no_metrics;
     world := O |}.

(** The service after [init] found [accounts]. *)
Definition ready (accounts : list value) : Machine nat :=
  {| options_accounts := EmptyString;
     state_accounts := Arr accounts;
     metrics := no_metrics;
     world := O |}.

Definition account_record (address nickname : string) (safe : value) : value :=
  Obj [("address", Str address); ("nickname", Str nickname); ("safe", safe)].

Definition alice : value := account_record "0xAA" "alice" (Bool false).
Definition bob : value := account_record "0xBB" "bob" (Bool true).

Definition carol : value := account_record "0xCC" "carol" (Bool true).

Definition timeout : exn := ProviderError "TIMEOUT".

(** Configuration texts: a record without [address]; an object where an
    array is due; an array cut short. *)
Definition no_address_text : string :=
  Json.quoted "[{'nickname':'alice','safe':false}]".
Definition not_an_array_text : string :=
  Json.quoted "{'address':'0xAA','nickname':'alice','safe':false}".
Definition cut_short_text : string :=
  Json.quoted "[{'address':'0xAA','nickname':'alice','safe':false}".
Definition bob_text : string :=
  Json.quoted "[{'address':'0xBB','nickname':'bob','safe':true}]".

(** Whether the one account of a configuration text counts as safe. *)
Definition safe_in (text : string) : option bool :=
  match Json.parse (Json.quoted text) with
  | Return (Arr [account]) => Some (is_safe account)
  | _ => None
  end.

(** A provider that rejects every request. *)
Definition rejecting : Provider nat := scripted (Throw timeout) (Throw timeout).

(** A provider that knows Alice's address only: her balance is 7 wei,
    every other read is rejected; calls are answered with [0x05]. *)
Definition alice_only : Provider nat :=
  {| getBalance := fun a w =>
       (if value_eqb a (Str "0xAA") then Return 7 else Throw timeout, S w);
     call := fun _ w => (Return [x05], S w) |}.

(** The seven bytes of [2^53 + 1]. *)
Definition big_nonce : list byte := [x20; x00; x00; x00; x00; x00; x01].

(** [2^53 + 3], in wei. *)
Definition big_balance : BigNumber := 9007199254740995.

End Scenario.

(* ================================================================== *)
(** ** The range of the gauges *)
(* ================================================================== *)

Module Limits.

(** The least magnitude that has no finite Number: half a unit in the
    last place below [2^1024]. *)
Definition overflow_point : Z := 2 ^ 1024 - 2 ^ 970.

(** The largest balance an account can hold: 256 bits, all set. *)
Definition max_uint256 : Z := 2 ^ 256 - 1.

End Limits.

(* ================================================================== *)
(** ** Traces against the collaborators *)
(* ================================================================== *)

Module Trace.

Import JsNumber Js Ethers BalanceMon.

Local Open Scope string_scope.

(** What an event does to the metrics registry. *)
Definition apply_event (x : Metrics) (e : event) : Metrics :=
  match e with
  | BalancesSet l v =>
      {| balances := gauge_set (balances x) l v;
         safeNonces := safeNonces x;
         unexpectedRpcErrors := unexpectedRpcErrors x |}
  | SafeNoncesSet l v =>
      {| balances := balances x;
         safeNonces := gauge_set (safeNonces x) l v;
         unexpectedRpcErrors := unexpectedRpcErrors x |}
  | UnexpectedRpcErrorsInc l =>
      {| balances := balances x;
         safeNonces := safeNonces x;
         unexpectedRpcErrors := counter_inc (unexpectedRpcErrors x) l |}
  | _ => x
  end.

(** The registry after a run of events. *)
Definition replay (evs : list event) (x : Metrics) : Metrics :=
  fold_left apply_event evs x.

(** The increments a trace holds under a label set. *)
Fixpoint increments (l : error_labels) (evs : list event) : Z :=
  match evs with
  | [] => 0
  | UnexpectedRpcErrorsInc l' :: evs' =>
      (if error_labels_eqb l' l then 1 else 0) + increments l evs'
  | _ :: evs' => increments l evs'
  end.

Definition is_rpc (e : event) : bool :=
  match e with
  | RpcGetBalance _ _ | RpcCall _ _ => true
  | _ => false
  end.

Definition is_log (e : event) : bool :=
  match e with
  | LoggerInfo _ _ => true
  | _ => false
  end.

(** The repertoire of the service: a contract call is a call of
    [nonce()] with no argument, and an error is counted under
    (balances, getBalance) or under (safeNonce, getSafeNonce). *)
Definition in_repertoire (e : event) : bool :=
  match e with
  | RpcCall tx _ => String.eqb (data tx) nonce_selector
  | UnexpectedRpcErrorsInc l =>
      error_labels_eqb l balances_error || error_labels_eqb l safeNonce_error
  | _ => true
  end.

(** The log record [msg], [fields] tells what the metric event [e] does:
    the balance (nonce) record names the labels of the write and the
    digits whose [parseInt] is written; the error record names the
    labels of the increment. *)
Definition announces (msg : string) (fields : list (string * logged))
           (e : event) : bool :=
  match e, fields with
  | BalancesSet (a, n) v,
    [(k1, LogValue a'); (k2, LogValue n'); (k3, LogValue (Str digits))] =>
      String.eqb msg "got balance"
      && String.eqb k1 "address" && String.eqb k2 "nickname"
      && String.eqb k3 "balance"
      && value_eqb a a' && value_eqb n n'
      && JsNumber.eqb (parseInt digits) v
  | SafeNoncesSet (a, n) v,
    [(k1, LogValue a'); (k2, LogValue n'); (k3, LogValue (Str digits))] =>
      String.eqb msg "got nonce"
      && String.eqb k1 "address" && String.eqb k2 "nickname"
      && String.eqb k3 "nonce"
      && value_eqb a a' && value_eqb n n'
      && JsNumber.eqb (parseInt digits) v
  | UnexpectedRpcErrorsInc (section, name),
    [(k1, LogValue (Str section')); (k2, LogValue (Str name')); (k3, LogError _)] =>
      String.eqb msg "got unexpected RPC error"
      && String.eqb k1 "section" && String.eqb k2 "name" && String.eqb k3 "err"
      && String.eqb section section' && String.eqb name name'
  | _, _ => false
  end.

(** A trace of log records and metric events in which each metric event
    comes right after the log record that announces it, and each log
    record is followed by the metric event it announces. *)
Fixpoint well_logged (evs : list event) : bool :=
  match evs with
  | [] => true
  | LoggerInfo msg fields :: rest =>
      match rest with
      | e :: rest' => announces msg fields e && well_logged rest'
      | [] => false
      end
  | _ :: _ => false
  end.

(** The machine with other accounts in its state. *)
Definition with_accounts {World} (m : Machine World) (v : value) : Machine World :=
  {| options_accounts := options_accounts m;
     state_accounts := v;
     metrics := metrics m;
     world := world m |}.

(** A method body is tidy when the metrics it leaves are the ones it
    found with the gauge writes and counter increments of its events
    applied in order, and every event is in the repertoire. *)
Definition tidy {World A} (c : M World A) : Prop :=
  forall m,
    metrics (final (c m)) = replay (emitted (c m)) (metrics m)
    /\ forallb in_repertoire (emitted (c m)) = true.

End Trace.

(* ================================================================== *)
(** ** More collaborators and machines *)
(* ================================================================== *)

Module Cases.

Import JsNumber Js Ethers BalanceMon Scenario.

Local Open Scope string_scope.

(** A provider whose answers depend on the world: the balance is the
    number of requests served so far, and so is the one byte of a call's
    answer on odd counts; on even counts a call is rejected. *)
Definition counting : Provider nat :=
  {| getBalance := fun _ w => (Return (Z.of_nat w), S w);
     call := fun _ w =>
       (if Nat.odd w
        then Return [match Byte.of_nat w with Some b => b | None => x00 end]
        else Throw timeout, S w) |}.

End Cases.

(* ================================================================== *)
(** * Facts about the substrate *)
(* ================================================================== *)

Module NumberFacts.

Import JsNumber.

Lemma odd_part_denotes (p : positive) :
  forall e n, denotes (Zpos p) e n ->
              denotes (Zpos (fst (odd_part p e))) (snd (odd_part p e)) n.
Proof.
  induction p as [p IH | p IH | ]; intros e n H; simpl; auto.
  apply IH. unfold denotes in *.
  destruct (0 <=? e) eqn:He.
  - apply Z.leb_le in He.
    replace (0 <=? e + 1) with true by (symmetry; apply Z.leb_le; lia).
    rewrite Z.pow_add_r by lia. rewrite H. rewrite Pos2Z.inj_xO. ring.
  - apply Z.leb_gt in He.
    destruct (0 <=? e + 1) eqn:He1.
    + apply Z.leb_le in He1. assert (e = -1) by lia. subst e.
      simpl in *. rewrite Pos2Z.inj_xO in H. lia.
    + apply Z.leb_gt in He1.
      replace (- e) with (1 + - (e + 1)) in H by lia.
      rewrite Z.pow_add_r in H by lia.
      rewrite Pos2Z.inj_xO in H. change (2 ^ 1) with 2 in H. lia.
Qed.

Lemma to_Z_denotes (neg : bool) (m e n : Z) :
  0 < m -> denotes m e n ->
  to_Z (Finite neg m e) = Some ((if neg then -1 else 1) * n).
Proof.
  intros Hm H. unfold denotes in H. unfold to_Z.
  destruct (0 <=? e) eqn:He.
  - now subst n.
  - apply Z.leb_gt in He.
    assert (Hp : 0 < 2 ^ (- e)) by (apply Z.pow_pos_nonneg; lia).
    subst m. rewrite Z.mod_mul by lia. simpl.
    rewrite Z.div_mul by lia. reflexivity.
Qed.

Lemma to_Z_canon (neg : bool) (m e n : Z) :
  0 <= m -> denotes m e n ->
  to_Z (canon neg m e) = Some ((if neg then -1 else 1) * n).
Proof.
  intros Hm H. destruct m as [| p | p]; try lia.
  - assert (n = 0).
    { unfold denotes in H. destruct (0 <=? e) eqn:He; [lia |].
      apply Z.leb_gt in He.
      assert (0 < 2 ^ (- e)) by (apply Z.pow_pos_nonneg; lia). nia. }
    subst n. simpl. destruct neg; reflexivity.
  - unfold canon. pose proof (odd_part_denotes p e n H) as Hd.
    destruct (odd_part p e) as [p' e']. simpl in Hd.
    apply to_Z_denotes; [lia | exact Hd].
Qed.

Lemma round_half_even_exact (k d : Z) :
  0 < d -> round_half_even (k * d) d = k.
Proof.
  intros Hd. unfold round_half_even.
  rewrite Z.mod_mul by lia. rewrite Z.div_mul by lia.
  destruct (2 * 0 ?= d) eqn:Hc; [| reflexivity |].
  - rewrite Z.compare_eq_iff in Hc. lia.
  - rewrite Z.compare_gt_iff in Hc. lia.
Qed.

Lemma round_half_even_near (num den : Z) :
  0 < den -> 2 * Z.abs (round_half_even num den * den - num) <= den.
Proof.
  intros Hd. unfold round_half_even.
  pose proof (Z.div_mod num den ltac:(lia)) as Hdm.
  pose proof (Z.mod_pos_bound num den Hd) as Hb.
  rewrite (Z.mul_comm den) in Hdm.
  set (q := num / den) in *. set (r := num mod den) in *.
  assert (Hq : q * den - num = - r) by lia.
  assert (Hq1 : (q + 1) * den - num = den - r)
    by (rewrite Z.mul_add_distr_r; lia).
  destruct (2 * r ?= den) eqn:Hc.
  - rewrite Z.compare_eq_iff in Hc.
    destruct (Z.even q); [rewrite Hq | rewrite Hq1]; lia.
  - rewrite Z.compare_lt_iff in Hc. rewrite Hq. lia.
  - rewrite Z.compare_gt_iff in Hc. rewrite Hq1. lia.
Qed.

Lemma round_half_even_nonneg (num den : Z) :
  0 <= num -> 0 < den -> 0 <= round_half_even num den.
Proof.
  intros Hn Hd. unfold round_half_even.
  pose proof (Z.div_pos num den Hn Hd).
  destruct (2 * (num mod den) ?= den); [destruct (Z.even (num / den)) | |]; lia.
Qed.

Lemma floor_log2_ratio_int (p : Z) : 0 < p -> floor_log2_ratio p 1 = Z.log2 p.
Proof.
  intros Hp. unfold floor_log2_ratio. rewrite Z.log2_1, Z.sub_0_r.
  pose proof (Z.log2_nonneg p) as Hl.
  pose proof (Z.log2_spec p Hp) as [Hlo _].
  replace (0 <=? Z.log2 p) with true by (symmetry; apply Z.leb_le; lia).
  replace (1 * 2 ^ Z.log2 p <=? p) with true by (symmetry; apply Z.leb_le; lia).
  reflexivity.
Qed.

Lemma sign_abs (n : Z) : (if n <? 0 then -1 else 1) * Z.abs n = n.
Proof. destruct (n <? 0) eqn:H; [apply Z.ltb_lt in H | apply Z.ltb_ge in H]; lia. Qed.

(** Below [2^53] every integer is a Number: nothing is lost. *)
Lemma of_Z_exact (n : Z) : Z.abs n <= 2 ^ 53 -> to_Z (of_Z n) = Some n.
Proof.
  intros Hn.
  destruct (Z.eq_dec (Z.abs n) (2 ^ 53)) as [Hmax | Hmax].
  { assert (Hc : n = 2 ^ 53 \/ n = - 2 ^ 53) by lia.
    destruct Hc; subst n; vm_compute; reflexivity. }
  destruct (Z.eq_dec n 0) as [-> | Hnz]; [reflexivity |].
  unfold of_Z, round_binary64.
  set (p := Z.abs n) in *. assert (Hp : 0 < p) by lia.
  replace (p =? 0) with false by (symmetry; apply Z.eqb_neq; lia).
  rewrite floor_log2_ratio_int by exact Hp.
  pose proof (Z.log2_nonneg p) as Hl0.
  assert (Hl : Z.log2 p < 53) by (apply Z.log2_lt_pow2; lia).
  set (e := Z.max (Z.log2 p - 52) emin).
  assert (He : e = Z.log2 p - 52) by (unfold e, emin; lia).
  replace (emax <? e) with false by (symmetry; apply Z.ltb_ge; unfold emax; lia).
  replace (e =? emax) with false by (symmetry; apply Z.eqb_neq; unfold emax; lia).
  cbn [orb andb].
  rewrite <- (sign_abs n) at 2. fold p.
  destruct (0 <=? e) eqn:Hsgn.
  - apply Z.leb_le in Hsgn. assert (e = 0) by lia.
    replace (1 * 2 ^ e) with 1 by (replace e with 0 by lia; reflexivity).
    rewrite <- (Z.mul_1_r p) at 1. rewrite round_half_even_exact by lia.
    apply to_Z_canon; [lia |]. unfold denotes.
    replace (0 <=? e) with true by (symmetry; apply Z.leb_le; lia).
    replace e with 0 by lia. lia.
  - apply Z.leb_gt in Hsgn.
    rewrite <- (Z.mul_1_r (p * 2 ^ (- e))). rewrite round_half_even_exact by lia.
    assert (0 < 2 ^ (- e)) by (apply Z.pow_pos_nonneg; lia).
    apply to_Z_canon; [nia |]. unfold denotes.
    replace (0 <=? e) with false by (symmetry; apply Z.leb_gt; lia).
    reflexivity.
Qed.

(** Whatever the size, the Number of an integer is within half a unit in
    the last place: a relative error of at most [2^-53]. *)
Lemma of_Z_near (n v : Z) :
  to_Z (of_Z n) = Some v -> 2 ^ 53 * Z.abs (v - n) <= Z.abs n.
Proof.
  intros Hv.
  destruct (Z_le_gt_dec (Z.abs n) (2 ^ 53)) as [Hsmall | Hbig].
  { rewrite (of_Z_exact n Hsmall) in Hv. injection Hv as <-.
    rewrite Z.sub_diag. simpl Z.abs. lia. }
  revert Hv. unfold of_Z, round_binary64.
  set (p := Z.abs n) in *. assert (Hp : 0 < p) by lia.
  replace (p =? 0) with false by (symmetry; apply Z.eqb_neq; lia).
  rewrite floor_log2_ratio_int by exact Hp.
  assert (Hl : 53 <= Z.log2 p) by (apply Z.log2_le_pow2; lia).
  pose proof (Z.log2_spec p Hp) as [Hlo _].
  set (e := Z.max (Z.log2 p - 52) emin).
  assert (He : e = Z.log2 p - 52) by (unfold e, emin; lia).
  replace (0 <=? e) with true by (symmetry; apply Z.leb_le; lia).
  rewrite Z.mul_1_l.
  assert (Hpe : 0 < 2 ^ e) by (apply Z.pow_pos_nonneg; lia).
  pose proof (round_half_even_near p (2 ^ e) Hpe) as Hnear.
  pose proof (round_half_even_nonneg p (2 ^ e) ltac:(lia) Hpe) as Hm0.
  set (m := round_half_even p (2 ^ e)) in *.
  destruct ((emax <? e) || ((e =? emax) && (m =? 2 ^ 53))); [discriminate |].
  rewrite (to_Z_canon (n <? 0) m e (m * 2 ^ e)); [| lia |].
  2: { unfold denotes.
       replace (0 <=? e) with true by (symmetry; apply Z.leb_le; lia).
       reflexivity. }
  intros Hv. injection Hv as <-.
  assert (Hsplit : 2 ^ Z.log2 p = 2 ^ 52 * 2 ^ e).
  { rewrite <- Z.pow_add_r by lia. f_equal. lia. }
  assert (Habs : Z.abs ((if n <? 0 then -1 else 1) * (m * 2 ^ e) - n)
                 = Z.abs (m * 2 ^ e - p)).
  { rewrite <- (sign_abs n) at 2. fold p.
    destruct (n <? 0); lia. }
  rewrite Habs. change (2 ^ 53) with (2 ^ 52 * 2) in *. lia.
Qed.

End NumberFacts.

Module EthersFacts.

Import JsNumber Js Ethers.

Lemma digit_prefix_uint (d : Decimal.uint) :
  digit_prefix (NilEmpty.string_of_uint d) = NilEmpty.string_of_uint d.
Proof. induction d; simpl; try rewrite IHd; reflexivity. Qed.

(** A run of digits, as [toString] writes them, reads back. *)
Lemma parseInt_digits (neg : bool) (d : Decimal.uint) :
  d <> Decimal.Nil ->
  parseInt ((if neg then String "-" EmptyString else EmptyString)
            ++ NilEmpty.string_of_uint d)
  = round_binary64 neg (Z.of_uint d) 1.
Proof.
  intros Hd. pose proof (NilEmpty.usu d) as Hu.
  destruct neg; destruct d; try (now contradiction Hd);
    unfold parseInt; simpl; rewrite digit_prefix_uint;
    simpl in Hu; rewrite Hu; reflexivity.
Qed.

(** [parseInt(b.toString(), 10)] is the Number value of [b]. *)
Lemma parseInt_toString (b : BigNumber) :
  parseInt (BigNumber_toString b) = of_Z b.
Proof.
  destruct b as [| p | p]; [reflexivity | |].
  - unfold BigNumber_toString, Z.to_int, NilZero.string_of_int, NilZero.string_of_uint.
    pose proof (Unsigned.to_uint_nonnil p) as Hnil.
    pose proof (parseInt_digits false (Pos.to_uint p) Hnil) as H.
    simpl append in H.
    replace (match Pos.to_uint p with
             | Decimal.Nil => String "0" EmptyString
             | _ => NilEmpty.string_of_uint (Pos.to_uint p)
             end) with (NilEmpty.string_of_uint (Pos.to_uint p))
      by (destruct (Pos.to_uint p); [now contradiction Hnil | reflexivity ..]).
    rewrite H. unfold Z.of_uint. rewrite DecimalPos.Unsigned.of_to. reflexivity.
  - unfold BigNumber_toString, Z.to_int, NilZero.string_of_int, NilZero.string_of_uint.
    pose proof (Unsigned.to_uint_nonnil p) as Hnil.
    pose proof (parseInt_digits true (Pos.to_uint p) Hnil) as H.
    simpl append in H.
    replace (match Pos.to_uint p with
             | Decimal.Nil => String "0" EmptyString
             | _ => NilEmpty.string_of_uint (Pos.to_uint p)
             end) with (NilEmpty.string_of_uint (Pos.to_uint p))
      by (destruct (Pos.to_uint p); [now contradiction Hnil | reflexivity ..]).
    rewrite H. unfold Z.of_uint. rewrite DecimalPos.Unsigned.of_to. reflexivity.
Qed.

End EthersFacts.

Module JsonFacts.

Import JsNumber Js Json.

Local Open Scope nat_scope.

Lemma skip_ws_length (s : string) : String.length (skip_ws s) <= String.length s.
Proof. induction s as [| c r IH]; simpl; [lia |]. destruct (is_ws c); simpl; lia. Qed.

Lemma strip_prefix_length (p : string) :
  forall s r, strip_prefix p s = Some r ->
              String.length r + String.length p = String.length s.
Proof.
  induction p as [| a p IH]; intros s r H; simpl in *.
  - injection H as <-. lia.
  - destruct s as [| b s]; [discriminate |].
    destruct (Ascii.eqb a b); [| discriminate].
    apply IH in H. simpl. lia.
Qed.

Lemma digits_length (s : string) :
  forall acc cnt a c r, digits s acc cnt = (a, c, r) ->
                        String.length r <= String.length s.
Proof.
  induction s as [| ch s IH]; intros acc cnt a c r H; simpl in *.
  - injection H as _ _ <-. simpl. lia.
  - destruct (digit_of ch).
    + apply IH in H. lia.
    + injection H as _ _ <-. simpl. lia.
Qed.

Lemma int_part_length (s : string) (m : Z) (r : string) :
  int_part s = Some (m, r) -> String.length r < String.length s.
Proof.
  unfold int_part. destruct s as [| c s]; [discriminate |].
  destruct (digit_of c) as [d |]; [| discriminate].
  destruct (d =? 0)%Z.
  - intros H. injection H as _ <-. simpl. lia.
  - destruct (digits s d 0) as [[m' c'] r'] eqn:Hd.
    intros H. injection H as _ <-. apply digits_length in Hd. simpl. lia.
Qed.

Lemma frac_part_length (m : Z) (s : string) (m' c : Z) (r : string) :
  frac_part m s = Some (m', c, r) -> String.length r <= String.length s.
Proof.
  unfold frac_part. destruct (strip_prefix "." s) as [r0 |] eqn:Hp.
  - destruct (digits r0 m 0) as [[a b] r1] eqn:Hd.
    destruct (b =? 0)%Z; [discriminate |].
    intros H. injection H as _ _ <-.
    apply digits_length in Hd. apply strip_prefix_length in Hp. lia.
  - intros H. injection H as _ _ <-. lia.
Qed.

Lemma exp_part_length (s : string) (x : Z) (r : string) :
  exp_part s = Some (x, r) -> String.length r <= String.length s.
Proof.
  unfold exp_part.
  set (after_e := match strip_prefix "e" s with
                  | Some r0 => Some r0
                  | None => strip_prefix "E" s
                  end).
  assert (Ha : forall r0, after_e = Some r0 -> String.length r0 <= String.length s).
  { intros r0. unfold after_e.
    destruct (strip_prefix "e" s) as [r1 |] eqn:H1.
    - intros H. injection H as <-. apply strip_prefix_length in H1. lia.
    - intros H. apply strip_prefix_length in H. lia. }
  destruct after_e as [r0 |].
  - specialize (Ha r0 eq_refl).
    set (sg := match strip_prefix "+" r0 with
               | Some r' => (false, r')
               | None => match strip_prefix "-" r0 with
                         | Some r' => (true, r')
                         | None => (false, r0)
                         end
               end).
    assert (Hs : String.length (snd sg) <= String.length r0).
    { unfold sg. destruct (strip_prefix "+" r0) as [r1 |] eqn:H1.
      - apply strip_prefix_length in H1. simpl. lia.
      - destruct (strip_prefix "-" r0) as [r1 |] eqn:H2.
        + apply strip_prefix_length in H2. simpl. lia.
        + simpl. lia. }
    destruct sg as [neg r1]. simpl in Hs.
    destruct (digits r1 0 0) as [[a b] r2] eqn:Hd.
    destruct (b =? 0)%Z; [discriminate |].
    intros H. injection H as _ <-. apply digits_length in Hd. lia.
  - intros H. injection H as _ <-. lia.
Qed.

Lemma parse_number_length (s : string) (n : number) (r : string) :
  parse_number s = POk n r -> String.length r < String.length s.
Proof.
  unfold parse_number.
  set (sg := match strip_prefix "-" s with
             | Some r0 => (true, r0)
             | None => (false, s)
             end).
  assert (Hs : String.length (snd sg) <= String.length s).
  { unfold sg. destruct (strip_prefix "-" s) as [r0 |] eqn:H1; simpl; [| lia].
    apply strip_prefix_length in H1. lia. }
  destruct sg as [neg s1]. simpl in Hs.
  destruct (int_part s1) as [[m s2] |] eqn:Hi; [| discriminate].
  destruct (frac_part m s2) as [[[m' fc] s3] |] eqn:Hf; [| discriminate].
  destruct (exp_part s3) as [[x s4] |] eqn:He; [| discriminate].
  intros H. injection H as _ <-.
  apply int_part_length in Hi. apply frac_part_length in Hf.
  apply exp_part_length in He. lia.
Qed.

Lemma parse_number_fuel (s : string) : parse_number s <> POutOfFuel.
Proof.
  unfold parse_number.
  destruct (match strip_prefix "-" s with
            | Some r0 => (true, r0)
            | None => (false, s)
            end) as [neg s1].
  destruct (int_part s1) as [[m s2] |]; [| discriminate].
  destruct (frac_part m s2) as [[[m' fc] s3] |]; [| discriminate].
  destruct (exp_part s3) as [[x s4] |]; discriminate.
Qed.

Lemma string_body_length (s : string) :
  forall acc items r, string_body s acc = POk items r ->
                      String.length r < String.length s.
Proof.
  induction s as [s IH] using (well_founded_induction
                                 (Wf_nat.well_founded_ltof _ String.length)).
  unfold Wf_nat.ltof in IH.
  intros acc items r. destruct s as [| c s]; simpl; [discriminate |].
  destruct (Ascii.eqb c dquote).
  { intros H. injection H as _ <-. lia. }
  destruct (Ascii.eqb c backslash).
  - destruct s as [| e r1]; [discriminate |].
    destruct (Ascii.eqb e "u").
    + destruct r1 as [| h1 [| h2 [| h3 [| h4 r2]]]]; try discriminate.
      destruct (hex4 h1 h2 h3 h4); [| discriminate].
      intros H. apply IH in H; simpl in *; lia.
    + destruct (simple_escape e); [| discriminate].
      intros H. apply IH in H; simpl in *; lia.
  - destruct (N_of_ascii c <? 32)%N; [discriminate |].
    intros H. apply IH in H; simpl in *; lia.
Qed.

Lemma string_body_fuel (s : string) :
  forall acc, string_body s acc <> POutOfFuel.
Proof.
  induction s as [s IH] using (well_founded_induction
                                 (Wf_nat.well_founded_ltof _ String.length)).
  unfold Wf_nat.ltof in IH.
  intros acc. destruct s as [| c s]; simpl; [discriminate |].
  destruct (Ascii.eqb c dquote); [discriminate |].
  destruct (Ascii.eqb c backslash).
  - destruct s as [| e r1]; [discriminate |].
    destruct (Ascii.eqb e "u").
    + destruct r1 as [| h1 [| h2 [| h3 [| h4 r2]]]]; try discriminate.
      destruct (hex4 h1 h2 h3 h4); [| discriminate].
      apply IH. simpl. lia.
    + destruct (simple_escape e); [| discriminate].
      apply IH. simpl. lia.
  - destruct (N_of_ascii c <? 32)%N; [discriminate |].
    apply IH. simpl. lia.
Qed.

Lemma parse_string_length (s x r : string) :
  parse_string s = POk x r -> String.length r < String.length s.
Proof.
  unfold parse_string. destruct (string_body s []) as [items r0 | |] eqn:H;
    try discriminate.
  intros E. injection E as _ <-. now apply string_body_length in H.
Qed.

Lemma parse_string_fuel (s : string) : parse_string s <> POutOfFuel.
Proof.
  unfold parse_string. pose proof (string_body_fuel s []) as H.
  destruct (string_body s []); [discriminate | discriminate | congruence].
Qed.

#[local] Arguments strip_prefix : simpl never.
#[local] Arguments skip_ws : simpl never.
#[local] Arguments parse_string : simpl never.
#[local] Arguments parse_number : simpl never.

(** Every parser that succeeds has read at least one character. *)
Lemma parse_consumes (n : nat) :
  (forall s v r, parse_value n s = POk v r -> String.length r < String.length s)
  /\ (forall s acc v r, parse_elements n s acc = POk v r ->
                        String.length r < String.length s)
  /\ (forall s acc v r, parse_members n s acc = POk v r ->
                        String.length r < String.length s).
Proof.
  induction n as [| n (IHv & IHe & IHm)];
    [repeat split; intros; discriminate |].
  repeat split.
  - intros s v r. simpl.
    pose proof (skip_ws_length s) as Hs.
    destruct (skip_ws s) as [| c t]; [discriminate |]. simpl in Hs.
    pose proof (skip_ws_length t) as Ht.
    destruct (Ascii.eqb c dquote).
    { destruct (parse_string t) as [x rest | |] eqn:Hp; try discriminate.
      intros H. injection H as _ <-. apply parse_string_length in Hp. lia. }
    destruct (Ascii.eqb c "[").
    { destruct (strip_prefix "]" (skip_ws t)) as [r' |] eqn:Hp.
      - intros H. injection H as _ <-. apply strip_prefix_length in Hp. lia.
      - intros H. apply IHe in H. lia. }
    destruct (Ascii.eqb c "{").
    { destruct (strip_prefix "}" (skip_ws t)) as [r' |] eqn:Hp.
      - intros H. injection H as _ <-. apply strip_prefix_length in Hp. lia.
      - intros H. apply IHm in H. lia. }
    destruct (Ascii.eqb c "t").
    { destruct (strip_prefix "rue" t) as [r' |] eqn:Hp; [| discriminate].
      intros H. injection H as _ <-. apply strip_prefix_length in Hp. lia. }
    destruct (Ascii.eqb c "f").
    { destruct (strip_prefix "alse" t) as [r' |] eqn:Hp; [| discriminate].
      intros H. injection H as _ <-. apply strip_prefix_length in Hp. lia. }
    destruct (Ascii.eqb c "n").
    { destruct (strip_prefix "ull" t) as [r' |] eqn:Hp; [| discriminate].
      intros H. injection H as _ <-. apply strip_prefix_length in Hp. lia. }
    destruct (parse_number (String c t)) as [x rest | |] eqn:Hp; try discriminate.
    intros H. injection H as _ <-. apply parse_number_length in Hp.
    simpl in Hp. lia.
  - intros s acc v r. simpl.
    destruct (parse_value n s) as [x t | |] eqn:Hp; try discriminate.
    apply IHv in Hp. pose proof (skip_ws_length t) as Ht.
    destruct (strip_prefix "," (skip_ws t)) as [r' |] eqn:Hc.
    + intros H. apply IHe in H. apply strip_prefix_length in Hc. lia.
    + destruct (strip_prefix "]" (skip_ws t)) as [r' |] eqn:Hb; [| discriminate].
      intros H. injection H as _ <-. apply strip_prefix_length in Hb. lia.
  - intros s acc v r. simpl.
    pose proof (skip_ws_length s) as Hs.
    destruct (skip_ws s) as [| c t]; [discriminate |]. simpl in Hs.
    destruct (Ascii.eqb c dquote); [| discriminate].
    destruct (parse_string t) as [k r1 | |] eqn:Hk; try discriminate.
    apply parse_string_length in Hk. pose proof (skip_ws_length r1) as H1.
    destruct (strip_prefix ":" (skip_ws r1)) as [r2 |] eqn:Hc; [| discriminate].
    apply strip_prefix_length in Hc.
    destruct (parse_value n r2) as [x r3 | |] eqn:Hp; try discriminate.
    apply IHv in Hp. pose proof (skip_ws_length r3) as H3.
    destruct (strip_prefix "," (skip_ws r3)) as [r4 |] eqn:Hd.
    + intros H. apply IHm in H. apply strip_prefix_length in Hd. lia.
    + destruct (strip_prefix "}" (skip_ws r3)) as [r4 |] eqn:Hb; [| discriminate].
      intros H. injection H as _ <-. apply strip_prefix_length in Hb. lia.
Qed.

(** The budget [JSON.parse] starts with is never used up: a parser given
    more than twice the length of its input does not stop for lack of it. *)
Lemma parse_fuel (n : nat) :
  (forall s, 2 * String.length s < n -> parse_value n s <> POutOfFuel)
  /\ (forall s acc, 2 * String.length s + 1 < n ->
                    parse_elements n s acc <> POutOfFuel)
  /\ (forall s acc, 2 * String.length s + 1 < n ->
                    parse_members n s acc <> POutOfFuel).
Proof.
  induction n as [| n (IHv & IHe & IHm)]; [repeat split; intros; lia |].
  repeat split.
  - intros s Hn. simpl.
    pose proof (skip_ws_length s) as Hs.
    destruct (skip_ws s) as [| c t]; [discriminate |]. simpl in Hs.
    pose proof (skip_ws_length t) as Ht.
    destruct (Ascii.eqb c dquote).
    { pose proof (parse_string_fuel t).
      destruct (parse_string t); [discriminate | discriminate | congruence]. }
    destruct (Ascii.eqb c "[").
    { destruct (strip_prefix "]" (skip_ws t)); [discriminate |].
      apply IHe. lia. }
    destruct (Ascii.eqb c "{").
    { destruct (strip_prefix "}" (skip_ws t)); [discriminate |].
      apply IHm. lia. }
    destruct (Ascii.eqb c "t"); [destruct (strip_prefix "rue" t); discriminate |].
    destruct (Ascii.eqb c "f"); [destruct (strip_prefix "alse" t); discriminate |].
    destruct (Ascii.eqb c "n"); [destruct (strip_prefix "ull" t); discriminate |].
    pose proof (parse_number_fuel (String c t)).
    destruct (parse_number (String c t)); [discriminate | discriminate | congruence].
  - intros s acc Hn. simpl.
    pose proof (IHv s ltac:(lia)) as Hv.
    destruct (parse_value n s) as [x t | |] eqn:Hp; [| discriminate | congruence].
    apply (proj1 (parse_consumes n)) in Hp.
    pose proof (skip_ws_length t) as Ht.
    destruct (strip_prefix "," (skip_ws t)) as [r' |] eqn:Hc.
    + apply strip_prefix_length in Hc. apply IHe. simpl in Hc. lia.
    + destruct (strip_prefix "]" (skip_ws t)); discriminate.
  - intros s acc Hn. simpl.
    pose proof (skip_ws_length s) as Hs.
    destruct (skip_ws s) as [| c t]; [discriminate |]. simpl in Hs.
    destruct (Ascii.eqb c dquote); [| discriminate].
    pose proof (parse_string_fuel t) as Hf.
    destruct (parse_string t) as [k r1 | |] eqn:Hk; [| discriminate | congruence].
    apply parse_string_length in Hk. pose proof (skip_ws_length r1) as H1.
    destruct (strip_prefix ":" (skip_ws r1)) as [r2 |] eqn:Hc; [| discriminate].
    apply strip_prefix_length in Hc. simpl in Hc.
    pose proof (IHv r2 ltac:(lia)) as Hv.
    destruct (parse_value n r2) as [x r3 | |] eqn:Hp; [| discriminate | congruence].
    apply (proj1 (parse_consumes n)) in Hp.
    pose proof (skip_ws_length r3) as H3.
    destruct (strip_prefix "," (skip_ws r3)) as [r4 |] eqn:Hd.
    + apply strip_prefix_length in Hd. apply IHm. simpl in Hd. lia.
    + destruct (strip_prefix "}" (skip_ws r3)); discriminate.
Qed.

(** [JSON.parse] throws for a syntax error only, never for lack of budget. *)
Lemma parse_value_fuel (text : string) :
  parse_value (2 * String.length text + 1) text <> POutOfFuel.
Proof. apply (proj1 (parse_fuel _)). lia. Qed.

Lemma parse_throws_SyntaxError (text : string) (e : exn) :
  parse text = Throw e -> e = SyntaxError.
Proof.
  unfold parse.
  destruct (parse_value (2 * String.length text + 1) text) as [v rest | |].
  - destruct (skip_ws rest); [discriminate | congruence].
  - congruence.
  - congruence.
Qed.

End JsonFacts.

(* ================================================================== *)
(** * Facts about the metrics *)
(* ================================================================== *)

Module MetricFacts.

Import JsNumber Js BalanceMon.

Lemma number_eqb_refl (x : number) : JsNumber.eqb x x = true.
Proof.
  destruct x as [neg m e | neg |]; simpl; [| apply Bool.eqb_reflx | reflexivity].
  now rewrite Bool.eqb_reflx, !Z.eqb_refl.
Qed.

Lemma value_eqb_refl : forall v : value, value_eqb v v = true.
Proof.
  fix IH 1. intros [| | b | n | s | elems | members]; simpl; try reflexivity.
  - apply Bool.eqb_reflx.
  - apply number_eqb_refl.
  - apply String.eqb_refl.
  - induction elems as [| x xs IHxs]; [reflexivity |].
    now rewrite (IH x), IHxs.
  - induction members as [| [k x] xs IHxs]; [reflexivity |].
    now rewrite String.eqb_refl, (IH x), IHxs.
Qed.

(** A gauge shows the value last set under a label set. *)
Lemma gauge_set_lookup (g : Gauge) (l : account_labels) (v : number) :
  gauge_set g l v l = Some v.
Proof.
  unfold gauge_set, account_labels_eqb. now rewrite !value_eqb_refl.
Qed.

(** A counter incremented under a label set counts one more there, and
    the same elsewhere. *)
Lemma counter_inc_lookup (c : Counter) (l : error_labels) :
  counter_inc c l l = c l + 1.
Proof.
  unfold counter_inc, error_labels_eqb. now rewrite !String.eqb_refl.
Qed.

Lemma counter_inc_other (c : Counter) (l l' : error_labels) :
  error_labels_eqb l l' = false -> counter_inc c l l' = c l'.
Proof. intros H. unfold counter_inc. now rewrite H. Qed.

Lemma filter_filter_sub {A} (P Q : A -> bool) (l : list A) :
  (forall x, P x = true -> Q x = true) ->
  filter P (filter Q l) = filter P l.
Proof.
  intros H. induction l as [| x l IH]; [reflexivity |]. simpl.
  destruct (Q x) eqn:HQ; simpl.
  - now rewrite IH.
  - destruct (P x) eqn:HP; [| exact IH]. apply H in HP. congruence.
Qed.

End MetricFacts.

(* ================================================================== *)
(** * Facts about the loop body *)
(* ================================================================== *)

Module StepFacts.

Import JsNumber Js Ethers BalanceMon.

Local Open Scope string_scope.

Section Steps.

Context {World : Type} (rpc : Provider World).

Lemma Get_coercible (account : value) (k : string) :
  coercible account = true -> Get account k = Return (prop account k).
Proof. intros H. unfold Get. now rewrite H. Qed.

(** The balance step, in closed form. *)
Lemma balance_step_run (account : value) (m : Machine World) :
  coercible account = true ->
  forall res w, getBalance rpc (address_of account) (world m) = (res, w) ->
  outcome (balance_step rpc account m) = Return tt
  /\ world (final (balance_step rpc account m)) = w
  /\ state_accounts (final (balance_step rpc account m)) = state_accounts m
  /\ options_accounts (final (balance_step rpc account m)) = options_accounts m
  /\ safeNonces (metrics (final (balance_step rpc account m))) = safeNonces (metrics m)
  /\ filter is_balance_event (emitted (balance_step rpc account m))
     = balance_round (account, res)
  /\ filter is_nonce_event (emitted (balance_step rpc account m)) = []
  /\ requests (emitted (balance_step rpc account m))
     = [GetBalanceRequest (address_of account)]
  /\ match res with
     | Return b =>
         balances (metrics (final (balance_step rpc account m)))
         = gauge_set (balances (metrics m)) (labels_of account) (of_Z b)
         /\ unexpectedRpcErrors (metrics (final (balance_step rpc account m)))
            = unexpectedRpcErrors (metrics m)
     | Throw _ =>
         balances (metrics (final (balance_step rpc account m)))
         = balances (metrics m)
         /\ unexpectedRpcErrors (metrics (final (balance_step rpc account m)))
            = counter_inc (unexpectedRpcErrors (metrics m)) balances_error
     end.
Proof.
  intros Hc res w Hrpc.
  unfold balance_step, try_catch, bind, lift, rpc_getBalance.
  rewrite !(Get_coercible account _ Hc). fold (address_of account).
  rewrite Hrpc. destruct res as [b | e]; simpl.
  - rewrite EthersFacts.parseInt_toString. repeat split.
  - repeat split.
Qed.

(** The nonce step, in closed form. *)
Lemma nonce_step_run (account : value) (m : Machine World) :
  coercible account = true ->
  forall res w, call rpc (nonce_request account) (world m) = (res, w) ->
  outcome (nonce_step rpc account m) = Return tt
  /\ world (final (nonce_step rpc account m)) = w
  /\ state_accounts (final (nonce_step rpc account m)) = state_accounts m
  /\ options_accounts (final (nonce_step rpc account m)) = options_accounts m
  /\ balances (metrics (final (nonce_step rpc account m))) = balances (metrics m)
  /\ filter is_nonce_event (emitted (nonce_step rpc account m))
     = nonce_round (account, res)
  /\ filter is_balance_event (emitted (nonce_step rpc account m)) = []
  /\ requests (emitted (nonce_step rpc account m))
     = [CallRequest (nonce_request account)]
  /\ match res with
     | Return ((_ :: _) as bytes) =>
         safeNonces (metrics (final (nonce_step rpc account m)))
         = gauge_set (safeNonces (metrics m)) (labels_of account)
             (of_Z (be_uint bytes))
         /\ unexpectedRpcErrors (metrics (final (nonce_step rpc account m)))
            = unexpectedRpcErrors (metrics m)
     | _ =>
         safeNonces (metrics (final (nonce_step rpc account m)))
         = safeNonces (metrics m)
         /\ unexpectedRpcErrors (metrics (final (nonce_step rpc account m)))
            = counter_inc (unexpectedRpcErrors (metrics m)) safeNonce_error
     end.
Proof.
  intros Hc res w Hrpc.
  unfold nonce_step, try_catch, bind, lift, rpc_call.
  rewrite !(Get_coercible account _ Hc). fold (address_of account).
  fold (nonce_request account).
  rewrite Hrpc. destruct res as [[| b bs] | e]; simpl.
  - repeat split.
  - rewrite EthersFacts.parseInt_toString. repeat split.
  - repeat split.
Qed.

(** The loop body: the balance step, then the nonce step of a safe. *)
Lemma account_step_run (account : value) (m : Machine World) :
  coercible account = true ->
  account_step rpc account m =
    let B := balance_step rpc account m in
    if is_safe account then
      let N := nonce_step rpc account (final B) in
      (Return tt, final N, (emitted B ++ emitted N)%list)
    else (Return tt, final B, emitted B).
Proof.
  intros Hc.
  destruct (getBalance rpc (address_of account) (world m)) as [res w] eqn:Hb.
  destruct (balance_step_run account m Hc res w Hb) as (HB & _).
  unfold account_step, bind, lift. rewrite (Get_coercible account _ Hc).
  fold (is_safe account).
  destruct (balance_step rpc account m) as [[r1 m1] e1].
  unfold outcome in HB. simpl in HB. subst r1. cbv [final emitted fst snd].
  destruct (is_safe account).
  - destruct (call rpc (nonce_request account) (world m1)) as [res2 w2] eqn:Hn.
    destruct (nonce_step_run account m1 Hc res2 w2 Hn) as (HN & _).
    destruct (nonce_step rpc account m1) as [[r2 m2] e2].
    unfold outcome in HN. simpl in HN. subst r2. reflexivity.
  - unfold ret. rewrite app_nil_r. reflexivity.
Qed.

(** No step touches the accounts or the options, whatever the account. *)
Lemma balance_step_frame (account : value) (m : Machine World) :
  state_accounts (final (balance_step rpc account m)) = state_accounts m
  /\ options_accounts (final (balance_step rpc account m)) = options_accounts m.
Proof.
  destruct (coercible account) eqn:Hc.
  - destruct (getBalance rpc (address_of account) (world m)) as [res w] eqn:Hb.
    destruct (balance_step_run account m Hc res w Hb) as (_ & _ & Hs & Ho & _).
    now split.
  - unfold balance_step, try_catch, bind, lift, Get. rewrite Hc. now split.
Qed.

Lemma nonce_step_frame (account : value) (m : Machine World) :
  state_accounts (final (nonce_step rpc account m)) = state_accounts m
  /\ options_accounts (final (nonce_step rpc account m)) = options_accounts m.
Proof.
  destruct (coercible account) eqn:Hc.
  - destruct (call rpc (nonce_request account) (world m)) as [res w] eqn:Hb.
    destruct (nonce_step_run account m Hc res w Hb) as (_ & _ & Hs & Ho & _).
    now split.
  - unfold nonce_step, try_catch, bind, lift, Get. rewrite Hc. now split.
Qed.

Lemma account_step_frame (account : value) (m : Machine World) :
  state_accounts (final (account_step rpc account m)) = state_accounts m
  /\ options_accounts (final (account_step rpc account m)) = options_accounts m.
Proof.
  destruct (coercible account) eqn:Hc.
  - rewrite (account_step_run account m Hc). cbv zeta.
    pose proof (balance_step_frame account m) as [Hs Ho].
    destruct (is_safe account); cbv [final fst snd] in *.
    + pose proof (nonce_step_frame account (snd (fst (balance_step rpc account m))))
        as [Hs' Ho'].
      cbv [final fst snd] in *. rewrite Hs', Ho'. now split.
    + now split.
  - pose proof (balance_step_frame account m) as [Hs Ho].
    unfold account_step, bind, lift, Get. rewrite Hc.
    destruct (balance_step rpc account m) as [[[u | e] m1] e1]; now split.
Qed.

(** A loop whose body returns goes on with the rest of the items. *)
Lemma for_of_cons (body : value -> M World unit) (a : value) (l : list value)
      (m : Machine World) :
  outcome (body a m) = Return tt ->
  for_of (a :: l) body m =
    (outcome (for_of l body (final (body a m))),
     final (for_of l body (final (body a m))),
     (emitted (body a m) ++ emitted (for_of l body (final (body a m))))%list).
Proof.
  intros H. simpl. unfold bind.
  destruct (body a m) as [[r m1] e1]. unfold outcome in H. simpl in H. subst r.
  cbv [outcome final emitted fst snd].
  now destruct (for_of l body m1) as [[r m2] e2].
Qed.

(** [main] is the loop over the array it finds in the state. *)
Lemma main_run (m : Machine World) (accounts : list value) :
  state_accounts m = Arr accounts ->
  main rpc m = for_of accounts (account_step rpc) m.
Proof.
  intros H. unfold main, bind, lift. rewrite H. simpl.
  now destruct (for_of accounts (account_step rpc) m) as [[r m1] e1].
Qed.

Lemma requests_app (xs ys : list event) :
  requests (xs ++ ys) = (requests xs ++ requests ys)%list.
Proof.
  induction xs as [| x xs IH]; [reflexivity |].
  destruct x; simpl; now rewrite IH.
Qed.

Lemma account_step_returns (account : value) (m : Machine World) :
  coercible account = true -> outcome (account_step rpc account m) = Return tt.
Proof.
  intros Hc. rewrite (account_step_run account m Hc). cbv zeta.
  now destruct (is_safe account).
Qed.

(** The requests of the loop body do not depend on any answer. *)
Lemma account_step_requests (account : value) (m : Machine World) :
  coercible account = true ->
  requests (emitted (account_step rpc account m)) = requests_for account.
Proof.
  intros Hc. rewrite (account_step_run account m Hc). cbv zeta.
  destruct (getBalance rpc (address_of account) (world m)) as [res w] eqn:Hb.
  destruct (balance_step_run account m Hc res w Hb)
    as (_ & _ & _ & _ & _ & _ & _ & HB & _).
  unfold requests_for. destruct (is_safe account); cbv [emitted snd] in *.
  - destruct (call rpc (nonce_request account)
                (world (final (balance_step rpc account m)))) as [res2 w2] eqn:Hn.
    destruct (nonce_step_run account _ Hc res2 w2 Hn)
      as (_ & _ & _ & _ & _ & _ & _ & HN & _).
    cbv [emitted snd] in HN. rewrite requests_app, HB, HN. reflexivity.
  - exact HB.
Qed.

(** The balance events of the loop body: one read, one outcome. *)
Lemma account_step_balance_view (account : value) (m : Machine World) :
  coercible account = true ->
  filter is_balance_event (emitted (account_step rpc account m))
  = balance_round (account, fst (getBalance rpc (address_of account) (world m))).
Proof.
  intros Hc. rewrite (account_step_run account m Hc). cbv zeta.
  destruct (getBalance rpc (address_of account) (world m)) as [res w] eqn:Hb.
  destruct (balance_step_run account m Hc res w Hb)
    as (_ & _ & _ & _ & _ & HB & _).
  destruct (is_safe account); cbv [emitted snd fst] in *.
  - destruct (call rpc (nonce_request account)
                (world (final (balance_step rpc account m)))) as [res2 w2] eqn:Hn.
    destruct (nonce_step_run account _ Hc res2 w2 Hn)
      as (_ & _ & _ & _ & _ & _ & HN & _).
    cbv [emitted snd] in HN. rewrite filter_app, HB, HN. apply app_nil_r.
  - exact HB.
Qed.

(** The nonce events of the loop body: none, or one call and one outcome. *)
Lemma account_step_nonce_view (account : value) (m : Machine World) :
  coercible account = true ->
  filter is_nonce_event (emitted (account_step rpc account m))
  = if is_safe account
    then nonce_round
           (account,
            fst (call rpc (nonce_request account)
                   (snd (getBalance rpc (address_of account) (world m)))))
    else [].
Proof.
  intros Hc. rewrite (account_step_run account m Hc). cbv zeta.
  destruct (getBalance rpc (address_of account) (world m)) as [res w] eqn:Hb.
  destruct (balance_step_run account m Hc res w Hb)
    as (_ & Hw & _ & _ & _ & _ & HB & _).
  destruct (is_safe account); cbv [emitted snd fst] in *.
  - rewrite <- Hw.
    destruct (call rpc (nonce_request account)
                (world (final (balance_step rpc account m)))) as [res2 w2] eqn:Hn.
    destruct (nonce_step_run account _ Hc res2 w2 Hn)
      as (_ & _ & _ & _ & _ & HN & _).
    cbv [emitted snd] in HN. rewrite filter_app, HB, HN. reflexivity.
  - exact HB.
Qed.

(** The metrics after the loop body, in closed form. *)
Lemma account_step_metrics (account : value) (m : Machine World) :
  coercible account = true ->
  forall res w res2 w2,
    getBalance rpc (address_of account) (world m) = (res, w) ->
    call rpc (nonce_request account) w = (res2, w2) ->
    let after := metrics (final (account_step rpc account m)) in
    let counted :=
      match res with
      | Return _ => unexpectedRpcErrors (metrics m)
      | Throw _ => counter_inc (unexpectedRpcErrors (metrics m)) balances_error
      end in
    balances after
    = match res with
      | Return b => gauge_set (balances (metrics m)) (labels_of account) (of_Z b)
      | Throw _ => balances (metrics m)
      end
    /\ safeNonces after
       = (if is_safe account then
            match nonce_fetch res2 with
            | Return n => gauge_set (safeNonces (metrics m)) (labels_of account) (of_Z n)
            | Throw _ => safeNonces (metrics m)
            end
          else safeNonces (metrics m))
    /\ unexpectedRpcErrors after
       = (if is_safe account then
            match nonce_fetch res2 with
            | Return _ => counted
            | Throw _ => counter_inc counted safeNonce_error
            end
          else counted).
Proof.
  intros Hc res w res2 w2 Hb Hn. cbv zeta.
  rewrite (account_step_run account m Hc). cbv zeta.
  destruct (balance_step_run account m Hc res w Hb)
    as (_ & Hw & _ & _ & HS & _ & _ & _ & HM).
  destruct (is_safe account).
  - rewrite <- Hw in Hn.
    destruct (nonce_step_run account _ Hc res2 w2 Hn)
      as (_ & _ & _ & _ & HB' & _ & _ & _ & HM').
    cbv [final fst snd] in *.
    rewrite HB'.
    destruct res2 as [[| b2 bs2] | e2]; simpl nonce_fetch; cbv iota;
      destruct HM' as [HN' HC']; rewrite HN', HC', HS;
      destruct res as [b | e]; destruct HM as [HB HC]; rewrite HB, HC;
      repeat split.
  - cbv [final fst snd] in *.
    destruct res as [b | e]; destruct HM as [HB HC]; rewrite HB, HC, HS;
      repeat split.
Qed.

(** The gauge writes of the loop body are the outcomes of its fetches. *)
Lemma account_step_balances_set (account : value) (m : Machine World) :
  coercible account = true ->
  filter is_balances_set (emitted (account_step rpc account m))
  = match fst (getBalance rpc (address_of account) (world m)) with
    | Return b => [BalancesSet (labels_of account) (of_Z b)]
    | Throw _ => []
    end.
Proof.
  intros Hc.
  rewrite <- (MetricFacts.filter_filter_sub is_balances_set is_balance_event)
    by (now intros []).
  rewrite (account_step_balance_view account m Hc).
  now destruct (fst (getBalance rpc (address_of account) (world m))).
Qed.

Lemma account_step_safeNonces_set (account : value) (m : Machine World) :
  coercible account = true ->
  filter is_safeNonces_set (emitted (account_step rpc account m))
  = if is_safe account then
      match nonce_fetch
              (fst (call rpc (nonce_request account)
                      (snd (getBalance rpc (address_of account) (world m))))) with
      | Return n => [SafeNoncesSet (labels_of account) (of_Z n)]
      | Throw _ => []
      end
    else [].
Proof.
  intros Hc.
  rewrite <- (MetricFacts.filter_filter_sub is_safeNonces_set is_nonce_event)
    by (now intros []).
  rewrite (account_step_nonce_view account m Hc).
  destruct (is_safe account); [| reflexivity].
  now destruct (fst (call rpc (nonce_request account)
                       (snd (getBalance rpc (address_of account) (world m)))))
    as [[| b bs] | e].
Qed.

End Steps.

End StepFacts.

(* ================================================================== *)
(** * Facts about the loop *)
(* ================================================================== *)

Module TickFacts.

Import JsNumber Js Ethers BalanceMon StepFacts.

Section Loop.

Context {World : Type} (rpc : Provider World).

Lemma loop_returns (l : list value) :
  forallb coercible l = true ->
  forall m, outcome (for_of l (account_step rpc) m) = Return tt.
Proof.
  induction l as [| a l IH]; intros Hl m; [reflexivity |].
  simpl in Hl. apply andb_prop in Hl as [Ha Hl].
  rewrite for_of_cons by now apply account_step_returns.
  cbv [outcome fst]. apply (IH Hl).
Qed.

Lemma loop_requests (l : list value) :
  forallb coercible l = true ->
  forall m, requests (emitted (for_of l (account_step rpc) m))
            = flat_map requests_for l.
Proof.
  induction l as [| a l IH]; intros Hl m; [reflexivity |].
  simpl in Hl. apply andb_prop in Hl as [Ha Hl].
  rewrite for_of_cons by now apply account_step_returns.
  cbv [emitted snd]. rewrite requests_app.
  pose proof (account_step_requests rpc a m Ha) as H1.
  pose proof (IH Hl (final (account_step rpc a m))) as H2.
  cbv [emitted snd] in H1, H2. rewrite H1, H2. reflexivity.
Qed.

Lemma loop_balance_view (l : list value) :
  forallb coercible l = true ->
  forall m, exists rs : list (completion BigNumber),
    List.length rs = List.length l
    /\ filter is_balance_event (emitted (for_of l (account_step rpc) m))
       = flat_map balance_round (combine l rs).
Proof.
  induction l as [| a l IH]; intros Hl m.
  - exists []. now split.
  - simpl in Hl. apply andb_prop in Hl as [Ha Hl].
    destruct (IH Hl (final (account_step rpc a m))) as (rs & Hlen & Hrs).
    exists (fst (getBalance rpc (address_of a) (world m)) :: rs). split.
    + simpl. now rewrite Hlen.
    + rewrite for_of_cons by now apply account_step_returns.
      pose proof (account_step_balance_view rpc a m Ha) as H1.
      cbv [emitted snd] in *. rewrite filter_app, H1, Hrs. reflexivity.
Qed.

Lemma loop_nonce_view (l : list value) :
  forallb coercible l = true ->
  forall m, exists rs : list (completion (list byte)),
    List.length rs = List.length (filter is_safe l)
    /\ filter is_nonce_event (emitted (for_of l (account_step rpc) m))
       = flat_map nonce_round (combine (filter is_safe l) rs).
Proof.
  induction l as [| a l IH]; intros Hl m.
  - exists []. now split.
  - simpl in Hl. apply andb_prop in Hl as [Ha Hl].
    destruct (IH Hl (final (account_step rpc a m))) as (rs & Hlen & Hrs).
    pose proof (account_step_nonce_view rpc a m Ha) as H1.
    rewrite for_of_cons by now apply account_step_returns.
    cbv [emitted snd] in *. rewrite filter_app, H1, Hrs. simpl filter.
    destruct (is_safe a).
    + exists (fst (call rpc (nonce_request a)
                     (snd (getBalance rpc (address_of a) (world m)))) :: rs).
      split; [simpl; now rewrite Hlen | reflexivity].
    + exists rs. now split.
Qed.

(** The loop leaves the accounts and the options as they are, also when
    an iteration throws. *)
Lemma loop_frame (l : list value) :
  forall m,
    state_accounts (final (for_of l (account_step rpc) m)) = state_accounts m
    /\ options_accounts (final (for_of l (account_step rpc) m)) = options_accounts m.
Proof.
  induction l as [| a l IH]; intros m; [now split |].
  pose proof (account_step_frame rpc a m) as [Hs Ho].
  simpl. unfold bind.
  destruct (account_step rpc a m) as [[[u | e] m1] e1]; cbv [final fst snd] in *.
  - destruct (IH m1) as [Hs' Ho']. cbv [final fst snd] in *.
    destruct (for_of l (account_step rpc) m1) as [[r m2] e2]. simpl in *.
    split; congruence.
  - now split.
Qed.

Lemma main_frame (m : Machine World) :
  state_accounts (final (main rpc m)) = state_accounts m
  /\ options_accounts (final (main rpc m)) = options_accounts m.
Proof.
  unfold main, bind, lift.
  destruct (iterate (state_accounts m)) as [items | e]; [| now split].
  pose proof (loop_frame items m) as H. cbv [final fst snd] in *.
  now destruct (for_of items (account_step rpc) m) as [[r m1] e1].
Qed.

(** A tick under the scheduler returns, whatever [main] does. *)
Lemma scheduled_tick (m : Machine World) :
  try_catch (main rpc) (fun _ => ret tt) m
  = (Return tt, final (main rpc m), emitted (main rpc m)).
Proof.
  unfold try_catch, ret. destruct (main rpc m) as [[[[] | e] m1] e1].
  - reflexivity.
  - cbv [final emitted fst snd]. now rewrite app_nil_r.
Qed.

Lemma ticks_succ (n : nat) (m : Machine World) :
  ticks rpc (S n) m
  = (outcome (ticks rpc n (final (main rpc m))),
     final (ticks rpc n (final (main rpc m))),
     (emitted (main rpc m) ++ emitted (ticks rpc n (final (main rpc m))))%list).
Proof.
  simpl. unfold bind. rewrite scheduled_tick.
  destruct (main rpc m) as [[r1 m1] e1]. cbv [outcome final emitted fst snd].
  now destruct (ticks rpc n m1) as [[r m2] e2].
Qed.

Lemma ticks_frame (n : nat) :
  forall m, state_accounts (final (ticks rpc n m)) = state_accounts m.
Proof.
  induction n as [| n IH]; intros m; [reflexivity |].
  rewrite ticks_succ. cbv [final fst snd].
  pose proof (IH (final (main rpc m))) as H. cbv [final fst snd] in H.
  rewrite H. apply main_frame.
Qed.

(** Tick after tick asks for the same things in the same order. *)
Lemma ticks_requests (accounts : list value) (n : nat) :
  forallb coercible accounts = true ->
  forall m, state_accounts m = Arr accounts ->
            requests (emitted (ticks rpc n m))
            = List.concat (repeat (flat_map requests_for accounts) n).
Proof.
  intros Hok. induction n as [| n IH]; intros m Hst; [reflexivity |].
  rewrite ticks_succ. cbv [emitted snd]. rewrite requests_app.
  pose proof (IH (final (main rpc m))) as H. cbv [emitted snd] in H.
  rewrite H by (rewrite (proj1 (main_frame m)); exact Hst).
  rewrite (main_run rpc m accounts Hst).
  pose proof (loop_requests accounts Hok m) as H1. cbv [emitted snd] in H1.
  rewrite H1. reflexivity.
Qed.

End Loop.

End TickFacts.


Module OverflowFacts.

Import JsNumber Limits NumberFacts.

Local Open Scope Z_scope.

(** Rounding reaches an even [k] from half a step below it on. *)
Lemma round_half_even_reaches (num den k : Z) :
  0 < den -> Z.even k = true -> (2 * k - 1) * den <= 2 * num ->
  k <= round_half_even num den.
Proof.
  intros Hd Hk H. unfold round_half_even.
  pose proof (Z.div_mod num den ltac:(lia)) as Hdm.
  pose proof (Z.mod_pos_bound num den Hd) as Hb.
  rewrite (Z.mul_comm den) in Hdm.
  set (q := num / den) in *. set (r := num mod den) in *.
  assert (Hq : k <= q + 1) by nia.
  destruct (Z.eq_dec k (q + 1)) as [E | E].
  - assert (Hr : den <= 2 * r) by nia.
    destruct (2 * r ?= den) eqn:Hc.
    + replace q with (k - 1) by lia.
      rewrite Z.even_sub, Hk. simpl. lia.
    + rewrite Z.compare_lt_iff in Hc. lia.
    + lia.
  - destruct (2 * r ?= den); [destruct (Z.even q) | |]; lia.
Qed.

Lemma pow_971 : 2 ^ 971 = 2 * 2 ^ 970.
Proof. now rewrite <- Z.pow_succ_r by lia. Qed.

Lemma pow_1024 : 2 ^ 1024 = 2 ^ 54 * 2 ^ 970.
Proof. now rewrite <- Z.pow_add_r by lia. Qed.

(** Below the overflow point the Number of an integer is an integer. *)
Lemma of_Z_finite (n : Z) :
  Z.abs n < overflow_point -> exists v, to_Z (of_Z n) = Some v.
Proof.
  intros Hn. unfold overflow_point in Hn.
  destruct (Z_le_gt_dec (Z.abs n) (2 ^ 53)) as [Hsmall | Hbig].
  { exists n. now apply of_Z_exact. }
  unfold of_Z, round_binary64.
  set (p := Z.abs n) in *. assert (Hp : 0 < p) by lia.
  replace (p =? 0) with false by (symmetry; apply Z.eqb_neq; lia).
  rewrite floor_log2_ratio_int by exact Hp.
  assert (Hl : 53 <= Z.log2 p) by (apply Z.log2_le_pow2; lia).
  assert (Hu : Z.log2 p < 1024).
  { apply Z.log2_lt_pow2; [exact Hp |].
    assert (0 < 2 ^ 970) by (apply Z.pow_pos_nonneg; lia). lia. }
  set (e := Z.max (Z.log2 p - 52) emin).
  assert (He : e = Z.log2 p - 52) by (unfold e, emin; lia).
  replace (0 <=? e) with true by (symmetry; apply Z.leb_le; lia).
  rewrite Z.mul_1_l.
  assert (Hpe : 0 < 2 ^ e) by (apply Z.pow_pos_nonneg; lia).
  pose proof (round_half_even_near p (2 ^ e) Hpe) as Hnear.
  pose proof (round_half_even_nonneg p (2 ^ e) ltac:(lia) Hpe) as Hm0.
  set (m := round_half_even p (2 ^ e)) in *.
  replace (emax <? e) with false by (symmetry; apply Z.ltb_ge; unfold emax; lia).
  assert (Hno : (e =? emax) && (m =? 2 ^ 53) = false).
  { destruct (e =? emax) eqn:E1; [| reflexivity].
    destruct (m =? 2 ^ 53) eqn:E2; [| reflexivity].
    apply Z.eqb_eq in E1, E2. exfalso. unfold emax in E1.
    rewrite E1, E2 in Hnear. rewrite pow_971 in Hnear. rewrite pow_1024 in Hn.
    set (D := 2 ^ 970) in *.
    change (2 ^ 53) with 9007199254740992 in Hnear.
    change (2 ^ 54) with 18014398509481984 in Hn. lia. }
  rewrite Hno. cbn [orb].
  eexists. apply to_Z_canon; [exact Hm0 |].
  unfold denotes.
  replace (0 <=? e) with true by (symmetry; apply Z.leb_le; lia).
  reflexivity.
Qed.

(** From the overflow point on it is an infinity. *)
Lemma of_Z_overflow (n : Z) :
  overflow_point <= Z.abs n -> of_Z n = Infinity (n <? 0).
Proof.
  intros Hn. unfold overflow_point in Hn.
  assert (HD : 0 < 2 ^ 970) by (apply Z.pow_pos_nonneg; lia).
  pose proof pow_1024 as H1024.
  unfold of_Z, round_binary64.
  set (p := Z.abs n) in *.
  assert (Hp : 2 ^ 1023 <= p).
  { assert (E : 2 ^ 1023 = 2 ^ 53 * 2 ^ 970)
      by now rewrite <- Z.pow_add_r by lia.
    rewrite E. rewrite H1024 in Hn.
    change (2 ^ 53) with 9007199254740992.
    change (2 ^ 54) with 18014398509481984 in Hn. lia. }
  assert (Hp0 : 0 < p).
  { assert (0 < 2 ^ 1023) by (apply Z.pow_pos_nonneg; lia). lia. }
  replace (p =? 0) with false by (symmetry; apply Z.eqb_neq; lia).
  rewrite floor_log2_ratio_int by exact Hp0.
  assert (Hl : 1023 <= Z.log2 p) by (apply Z.log2_le_pow2; lia).
  set (e := Z.max (Z.log2 p - 52) emin).
  assert (He : e = Z.log2 p - 52) by (unfold e, emin; lia).
  replace (0 <=? e) with true by (symmetry; apply Z.leb_le; lia).
  rewrite Z.mul_1_l.
  destruct (Z.eq_dec (Z.log2 p) 1023) as [E | E].
  - assert (Ee : e = emax) by (unfold emax; lia).
    replace (e =? emax) with true by (symmetry; apply Z.eqb_eq; exact Ee).
    assert (Hm : round_half_even p (2 ^ e) = 2 ^ 53).
    { rewrite Ee. unfold emax.
      assert (Hd : 0 < 2 ^ 971) by (apply Z.pow_pos_nonneg; lia).
      pose proof (Z.log2_spec p Hp0) as [_ Hhi]. rewrite E in Hhi.
      change (Z.succ 1023) with 1024 in Hhi.
      pose proof (round_half_even_near p (2 ^ 971) Hd) as Hnear.
      assert (Hge : 2 ^ 53 <= round_half_even p (2 ^ 971)).
      { apply round_half_even_reaches; [exact Hd | reflexivity |].
        rewrite pow_971. rewrite H1024 in Hn. set (D := 2 ^ 970) in *.
        change (2 ^ 53) with 9007199254740992.
        change (2 ^ 54) with 18014398509481984 in Hn. lia. }
      rewrite pow_971 in Hnear, Hge |- *. rewrite H1024 in Hhi.
      set (D := 2 ^ 970) in *.
      change (2 ^ 53) with 9007199254740992 in *.
      change (2 ^ 54) with 18014398509481984 in *.
      set (m := round_half_even p (2 * D)) in *.
      destruct (Z_le_gt_dec m 9007199254740992) as [Hle | Hgt]; [lia |].
      exfalso.
      assert (Hmul : 9007199254740993 * (2 * D) <= m * (2 * D))
        by (apply Z.mul_le_mono_nonneg_r; lia).
      lia. }
    rewrite Hm, Z.eqb_refl. now rewrite orb_true_r.
  - replace (emax <? e) with true by (symmetry; apply Z.ltb_lt; unfold emax; lia).
    reflexivity.
Qed.

End OverflowFacts.

Module BytesFacts.

Import Ethers Limits.

Local Open Scope Z_scope.

Lemma be_uint_from (data : list byte) :
  forall acc,
    0 <= acc ->
    0 <= fold_left (fun a b => a * 256 + Z.of_N (Byte.to_N b)) data acc
    < (acc + 1) * 256 ^ Z.of_nat (List.length data).
Proof.
  induction data as [| b data IH]; intros acc Hacc.
  - simpl. lia.
  - pose proof (Byte.to_N_bounded b) as Hb.
    assert (H0 : 0 <= acc * 256 + Z.of_N (Byte.to_N b)) by lia.
    specialize (IH _ H0). cbn [fold_left List.length].
    rewrite Nat2Z.inj_succ, Z.pow_succ_r by lia.
    assert (Hp : 0 < 256 ^ Z.of_nat (List.length data))
      by (apply Z.pow_pos_nonneg; lia).
    split; [lia |].
    eapply Z.lt_le_trans; [apply IH |].
    rewrite Z.mul_assoc.
    apply Z.mul_le_mono_nonneg_r; lia.
Qed.

(** A byte string spells a natural number below [256^length]. *)
Lemma be_uint_range (data : list byte) :
  0 <= be_uint data < 256 ^ Z.of_nat (List.length data).
Proof.
  pose proof (be_uint_from data 0 ltac:(lia)) as H.
  unfold be_uint. lia.
Qed.

(** A word of 32 bytes, or a shorter answer, is a 256-bit number. *)
Lemma be_uint_word (data : list byte) :
  (List.length data <= 32)%nat -> 0 <= be_uint data <= max_uint256.
Proof.
  intros Hlen. pose proof (be_uint_range data) as [H0 H1].
  split; [exact H0 |].
  assert (Hp : 256 ^ Z.of_nat (List.length data) <= 256 ^ 32)
    by (apply Z.pow_le_mono_r; lia).
  unfold max_uint256. change (256 ^ 32) with (2 ^ 256) in Hp. lia.
Qed.

End BytesFacts.

(* ================================================================== *)
(** * The properties of a tick *)
(* ================================================================== *)

Import JsNumber Js Ethers BalanceMon Scenario Limits.
Import NumberFacts EthersFacts JsonFacts StepFacts TickFacts.
Import OverflowFacts BytesFacts.

Local Open Scope string_scope.

(** C1.  Failure isolation.  Whatever the provider answers, to whichever
    request, a tick over accounts that have properties (every record has)
    runs to its end, and the requests it makes are the same: for each
    account in turn the balance read, then the nonce call when the
    account is safe.  So a balance read that fails for an account keeps
    back neither the nonce call for that account nor anything owed to a
    later account, and no failed operation aborts the tick. *)
Theorem tick_isolates_failures :
  forall (World : Type) (rpc : Provider World) (m : Machine World)
         (accounts : list value),
    state_accounts m = Arr accounts ->
    forallb coercible accounts = true ->
    outcome (main rpc m) = Return tt
    /\ requests (emitted (main rpc m)) = flat_map requests_for accounts.
Proof.
  intros World rpc m accounts Hst Hok.
  rewrite (main_run rpc m accounts Hst). split.
  - now apply loop_returns.
  - now apply loop_requests.
Qed.

(** Two safes, a provider that rejects every request: both balance reads
    and both nonce calls are still made, and the tick returns. *)
Lemma tick_isolates_failures_witness :
  state_accounts (ready [bob; carol]) = Arr [bob; carol]
  /\ forallb coercible [bob; carol] = true
  /\ outcome (main rejecting (ready [bob; carol])) = Return tt
  /\ requests (emitted (main rejecting (ready [bob; carol])))
     = [GetBalanceRequest (Str "0xBB");
        CallRequest {| to := Str "0xBB"; data := "0xaffed0e0" |};
        GetBalanceRequest (Str "0xCC");
        CallRequest {| to := Str "0xCC"; data := "0xaffed0e0" |}].
Proof.
  exact (conj eq_refl
           (conj eq_refl
              (tick_isolates_failures nat rejecting (ready [bob; carol])
                 [bob; carol] eq_refl eq_refl))).
Defined.

(** C2.  One balance outcome per account.  The balance events of a tick
    are, account by account in list order, one balance read and right
    after it one outcome: the write of the balances gauge under the
    account's (address, nickname) when the read answered, the increment
    of the error counter under (balances, getBalance) when it failed;
    never both, never neither. *)
Theorem tick_balance_outcomes :
  forall (World : Type) (rpc : Provider World) (m : Machine World)
         (accounts : list value),
    state_accounts m = Arr accounts ->
    forallb coercible accounts = true ->
    exists answers : list (completion BigNumber),
      List.length answers = List.length accounts
      /\ filter is_balance_event (emitted (main rpc m))
         = flat_map
             (fun ar =>
                [RpcGetBalance (address_of (fst ar)) (snd ar);
                 match snd ar with
                 | Return b => BalancesSet (address_of (fst ar), nickname_of (fst ar))
                                 (of_Z b)
                 | Throw _ => UnexpectedRpcErrorsInc ("balances", "getBalance")
                 end])
             (combine accounts answers).
Proof.
  intros World rpc m accounts Hst Hok.
  rewrite (main_run rpc m accounts Hst).
  destruct (loop_balance_view rpc accounts Hok m) as (rs & Hlen & Hrs).
  exists rs. split; [exact Hlen |]. rewrite Hrs.
  apply flat_map_ext. intros [a r]. unfold balance_round, balance_outcome.
  simpl. now destruct r.
Qed.

(** Alice's balance is read, Bob's read is rejected. *)
Lemma tick_balance_outcomes_witness :
  state_accounts (ready [alice; bob]) = Arr [alice; bob]
  /\ forallb coercible [alice; bob] = true
  /\ exists answers : list (completion BigNumber),
       List.length answers = List.length [alice; bob]
       /\ filter is_balance_event
            (emitted (main alice_only (ready [alice; bob])))
          = flat_map
              (fun ar =>
                 [RpcGetBalance (address_of (fst ar)) (snd ar);
                  match snd ar with
                  | Return b =>
                      BalancesSet (address_of (fst ar), nickname_of (fst ar))
                        (of_Z b)
                  | Throw _ => UnexpectedRpcErrorsInc ("balances", "getBalance")
                  end])
              (combine [alice; bob] answers).
Proof.
  exact (conj eq_refl
           (conj eq_refl
              (tick_balance_outcomes nat alice_only
                 (ready [alice; bob]) [alice; bob] eq_refl eq_refl))).
Defined.

(** C3, as stated, fails: the written value is not always the integer the
    returned bytes spell.  The safe answers [0x20000000000001], which is
    [2^53 + 1]; the nonce gauge is set to [2^53]. *)
Lemma nonce_gauge_value_counterexample :
  is_safe bob = true
  /\ be_uint big_nonce = 9007199254740993
  /\ filter is_nonce_event
       (emitted (main (scripted (Throw timeout) (Return big_nonce)) (ready [bob])))
     = [RpcCall {| to := Str "0xBB"; data := "0xaffed0e0" |} (Return big_nonce);
        SafeNoncesSet (Str "0xBB", Str "bob") (Finite false 1 53)]
  /\ to_Z (Finite false 1 53) = Some 9007199254740992
  /\ to_Z (Finite false 1 53) <> Some (be_uint big_nonce).
Proof. vm_compute. repeat split. discriminate. Qed.

(** C3, amended.  The nonce events of a tick are, for each safe account
    in list order, one call to the account's address with the data
    [0xaffed0e0] and right after it one outcome: the write of the
    safeNonces gauge under the account's (address, nickname) when the
    fetch gave a number, the increment of the error counter under
    (safeNonce, getSafeNonce) when it failed.  The number fetched from a
    non-empty answer is its big-endian unsigned integer, never negative,
    and the value written is the Number nearest to it: the integer itself
    up to [2^53]; an integer within a relative error of [2^-53] of it
    below [2^1024 - 2^970]; the infinity from there on.  An answer of 32
    bytes or fewer stays below that point. *)
Theorem tick_nonce_outcomes :
  forall (World : Type) (rpc : Provider World) (m : Machine World)
         (accounts : list value),
    state_accounts m = Arr accounts ->
    forallb coercible accounts = true ->
    (exists answers : list (completion (list byte)),
       List.length answers = List.length (filter is_safe accounts)
       /\ filter is_nonce_event (emitted (main rpc m))
          = flat_map
              (fun ar =>
                 [RpcCall {| to := address_of (fst ar); data := "0xaffed0e0" |}
                    (snd ar);
                  match nonce_fetch (snd ar) with
                  | Return n =>
                      SafeNoncesSet (address_of (fst ar), nickname_of (fst ar))
                        (of_Z n)
                  | Throw _ => UnexpectedRpcErrorsInc ("safeNonce", "getSafeNonce")
                  end])
              (combine (filter is_safe accounts) answers))
    /\ (forall b bytes, nonce_fetch (Return (b :: bytes))
                        = Return (be_uint (b :: bytes)))
    /\ (forall bytes, 0 <= be_uint bytes)
    /\ (forall n, Z.abs n <= 2 ^ 53 -> to_Z (of_Z n) = Some n)
    /\ (forall n, (Z.abs n < overflow_point)%Z ->
                  exists v, to_Z (of_Z n) = Some v
                            /\ 2 ^ 53 * Z.abs (v - n) <= Z.abs n)
    /\ (forall n, overflow_point <= Z.abs n -> of_Z n = Infinity (n <? 0)%Z)
    /\ (forall bytes, (List.length bytes <= 32)%nat ->
                      (be_uint bytes < overflow_point)%Z).
Proof.
  intros World rpc m accounts Hst Hok.
  split; [| split; [reflexivity |
            split; [intros bytes; apply be_uint_range |
            split; [exact of_Z_exact |
            split; [| split; [exact of_Z_overflow |]]]]]].
  2: { intros n Hn. destruct (of_Z_finite n Hn) as [v Hv].
       exists v. split; [exact Hv | now apply of_Z_near]. }
  2: { intros bytes Hlen. pose proof (be_uint_word bytes Hlen) as [_ Hw].
       assert (Hm : (max_uint256 < overflow_point)%Z) by reflexivity.
       exact (Z.le_lt_trans _ _ _ Hw Hm). }
  rewrite (main_run rpc m accounts Hst).
  destruct (loop_nonce_view rpc accounts Hok m) as (rs & Hlen & Hrs).
  exists rs. split; [exact Hlen |]. rewrite Hrs.
  apply flat_map_ext. intros [a r]. unfold nonce_round, nonce_outcome.
  simpl. now destruct r as [[| b bs] | e].
Qed.

(** Three accounts, two of them safes, a provider that answers [0x05]. *)
Lemma tick_nonce_outcomes_witness :
  state_accounts (ready [alice; bob; carol]) = Arr [alice; bob; carol]
  /\ forallb coercible [alice; bob; carol] = true
  /\ (exists answers : list (completion (list byte)),
       List.length answers = List.length (filter is_safe [alice; bob; carol])
       /\ filter is_nonce_event
            (emitted (main (scripted (Return 7) (Return [x05]))
                        (ready [alice; bob; carol])))
          = flat_map
              (fun ar =>
                 [RpcCall {| to := address_of (fst ar); data := "0xaffed0e0" |}
                    (snd ar);
                  match nonce_fetch (snd ar) with
                  | Return n =>
                      SafeNoncesSet (address_of (fst ar), nickname_of (fst ar))
                        (of_Z n)
                  | Throw _ => UnexpectedRpcErrorsInc ("safeNonce", "getSafeNonce")
                  end])
              (combine (filter is_safe [alice; bob; carol]) answers))
  /\ (Z.abs (be_uint [x05]) < overflow_point)%Z
  /\ (exists v, to_Z (of_Z (be_uint [x05])) = Some v
                /\ 2 ^ 53 * Z.abs (v - be_uint [x05]) <= Z.abs (be_uint [x05])).
Proof.
  pose (H := tick_nonce_outcomes nat (scripted (Return 7) (Return [x05]))
               (ready [alice; bob; carol]) [alice; bob; carol]
               eq_refl eq_refl).
  exact (conj eq_refl
           (conj eq_refl
              (conj (proj1 H)
                 (conj eq_refl
                    (proj1 (proj2 (proj2 (proj2 (proj2 H))))
                       (be_uint [x05]) eq_refl))))).
Defined.

(** C4, as stated, fails: [init] checks the syntax of the text and nothing
    else.  An array whose record has no [address] passes, and the tick
    that follows reads the balance of [undefined]; an object where the
    array is due passes too. *)
Lemma malformed_accounts_counterexample :
  malformed no_address_text = true
  /\ outcome (init (fresh no_address_text)) = Return tt
  /\ requests (emitted (run rejecting 1 (fresh no_address_text)))
     = [GetBalanceRequest Undefined]
  /\ malformed not_an_array_text = true
  /\ outcome (init (fresh not_an_array_text)) = Return tt
  /\ outcome (run rejecting 1 (fresh not_an_array_text)) = Return tt.
Proof. vm_compute. repeat split. Qed.

(** C4, amended.  [init] fails exactly when the text is not JSON: it
    then throws a [SyntaxError], leaves the machine as it was, and
    [run] schedules no tick, however many are asked for.  On every JSON
    text, whatever value it denotes, [init] returns and that value
    becomes the accounts.  (The parser's budget plays no part in this.) *)
Theorem init_fails_on_syntax_errors_only :
  forall (World : Type) (rpc : Provider World) (m : Machine World),
    match Json.parse (options_accounts m) with
    | Throw e =>
        e = SyntaxError
        /\ init m = (Throw SyntaxError, m, [])
        /\ forall n, run rpc n m = (Throw SyntaxError, m, [])
    | Return v =>
        outcome (init m) = Return tt
        /\ state_accounts (final (init m)) = v
        /\ emitted (init m) = []
    end
    /\ Json.parse_value (2 * String.length (options_accounts m) + 1)
         (options_accounts m) <> Json.POutOfFuel.
Proof.
  intros World rpc m. split; [| apply parse_value_fuel].
  destruct (Json.parse (options_accounts m)) as [v | e] eqn:Hp.
  - unfold init. rewrite Hp. repeat split.
  - apply parse_throws_SyntaxError in Hp as He. subst e.
    assert (Hi : init m = (Throw SyntaxError, m, []))
      by (unfold init; now rewrite Hp).
    repeat split; [exact Hi |].
    intros n. unfold run, bind. now rewrite Hi.
Qed.

(** C5.  A failed fetch writes no gauge.  In the loop body of an account,
    a balance read that fails is followed by no write of the balances
    gauge, and the gauge is left as it was, under every label set; a
    nonce fetch that fails (the call, or the reading of its answer) is
    followed by no write of the safeNonces gauge, and that gauge is left
    as it was. *)
Theorem failed_fetch_writes_no_gauge :
  forall (World : Type) (rpc : Provider World) (account : value)
         (m : Machine World),
    coercible account = true ->
    (failed (fst (getBalance rpc (address_of account) (world m))) = true ->
       filter is_balances_set (emitted (account_step rpc account m)) = []
       /\ balances (metrics (final (account_step rpc account m)))
          = balances (metrics m))
    /\ (is_safe account = true ->
        failed (nonce_fetch
                  (fst (call rpc (nonce_request account)
                          (snd (getBalance rpc (address_of account) (world m))))))
        = true ->
        filter is_safeNonces_set (emitted (account_step rpc account m)) = []
        /\ safeNonces (metrics (final (account_step rpc account m)))
           = safeNonces (metrics m)).
Proof.
  intros World rpc account m Hc.
  destruct (getBalance rpc (address_of account) (world m)) as [res w] eqn:Hb.
  destruct (call rpc (nonce_request account) w) as [res2 w2] eqn:Hn.
  destruct (account_step_metrics rpc account m Hc res w res2 w2 Hb Hn)
    as (HB & HN & _).
  pose proof (account_step_balances_set rpc account m Hc) as EB.
  pose proof (account_step_safeNonces_set rpc account m Hc) as EN.
  rewrite Hb in EB, EN. simpl fst in *. simpl snd in *. rewrite Hn in EN |- *.
  simpl fst in *. split.
  - intros Hf. destruct res as [b | e]; [discriminate |]. now split.
  - intros Hs Hf. rewrite Hs in EN, HN.
    destruct (nonce_fetch res2) as [n | e]; [discriminate |]. now split.
Qed.

(** A safe whose balance read and nonce call are both rejected: neither
    gauge is written. *)
Lemma failed_fetch_writes_no_gauge_witness :
  coercible bob = true
  /\ failed (fst (getBalance rejecting (address_of bob) (world (ready [bob]))))
     = true
  /\ (filter is_balances_set (emitted (account_step rejecting bob (ready [bob]))) = []
      /\ balances (metrics (final (account_step rejecting bob (ready [bob]))))
         = balances (metrics (ready [bob])))
  /\ is_safe bob = true
  /\ failed (nonce_fetch
               (fst (call rejecting (nonce_request bob)
                       (snd (getBalance rejecting (address_of bob)
                               (world (ready [bob])))))))
     = true
  /\ (filter is_safeNonces_set (emitted (account_step rejecting bob (ready [bob]))) = []
      /\ safeNonces (metrics (final (account_step rejecting bob (ready [bob]))))
         = safeNonces (metrics (ready [bob]))).
Proof.
  pose (H := failed_fetch_writes_no_gauge nat rejecting bob (ready [bob]) eq_refl).
  exact (conj eq_refl
           (conj eq_refl
              (conj (proj1 H eq_refl)
                 (conj eq_refl (conj eq_refl (proj2 H eq_refl eq_refl)))))).
Defined.

(** C6.  An account that is not safe has no nonce step.  Its loop body
    makes no contract call, writes no nonce gauge and counts no nonce
    error, and leaves the safeNonces gauge as it was; and every nonce
    event of a tick belongs to an account of the list that is safe. *)
Theorem unsafe_account_skips_nonce_step :
  forall (World : Type) (rpc : Provider World) (m : Machine World)
         (accounts : list value),
    state_accounts m = Arr accounts ->
    forallb coercible accounts = true ->
    (forall account m',
       In account accounts -> is_safe account = false ->
       filter is_nonce_event (emitted (account_step rpc account m')) = []
       /\ safeNonces (metrics (final (account_step rpc account m')))
          = safeNonces (metrics m'))
    /\ (forall e,
          In e (emitted (main rpc m)) -> is_nonce_event e = true ->
          exists account,
            In account accounts /\ is_safe account = true
            /\ ((exists r, e = RpcCall {| to := address_of account;
                                          data := "0xaffed0e0" |} r)
                \/ (exists v, e = SafeNoncesSet
                                    (address_of account, nickname_of account) v)
                \/ e = UnexpectedRpcErrorsInc ("safeNonce", "getSafeNonce"))).
Proof.
  intros World rpc m accounts Hst Hok. split.
  - intros account m' Hin Hs.
    assert (Hc : coercible account = true)
      by (rewrite forallb_forall in Hok; now apply Hok).
    split.
    + rewrite (account_step_nonce_view rpc account m' Hc). now rewrite Hs.
    + destruct (getBalance rpc (address_of account) (world m')) as [res w] eqn:Hb.
      destruct (call rpc (nonce_request account) w) as [res2 w2] eqn:Hn.
      destruct (account_step_metrics rpc account m' Hc res w res2 w2 Hb Hn)
        as (_ & HN & _).
      now rewrite Hs in HN.
  - intros e Hin He.
    assert (Hf : In e (filter is_nonce_event (emitted (main rpc m))))
      by (apply filter_In; now split).
    rewrite (main_run rpc m accounts Hst) in Hf.
    destruct (loop_nonce_view rpc accounts Hok m) as (rs & _ & Hrs).
    rewrite Hrs in Hf. apply in_flat_map in Hf as ([a r] & Hcomb & Hround).
    apply in_combine_l in Hcomb. apply filter_In in Hcomb as [Ha Hs].
    exists a. split; [exact Ha |]. split; [exact Hs |].
    destruct Hround as [<- | [<- | []]].
    + left. now exists r.
    + right. unfold nonce_outcome. simpl.
      destruct r as [[| b bs] | e']; [now right | left; eauto | now right].
Qed.

(** Alice is no safe, Bob is: the nonce events of the tick are Bob's. *)
Lemma unsafe_account_skips_nonce_step_witness :
  state_accounts (ready [alice; bob]) = Arr [alice; bob]
  /\ forallb coercible [alice; bob] = true
  /\ In alice [alice; bob]
  /\ is_safe alice = false
  /\ filter is_nonce_event
       (emitted (account_step (scripted (Return 7) (Return [x05])) alice
                   (ready [alice; bob]))) = []
  /\ safeNonces
       (metrics (final (account_step (scripted (Return 7) (Return [x05])) alice
                          (ready [alice; bob]))))
     = safeNonces (metrics (ready [alice; bob])).
Proof.
  pose (H := unsafe_account_skips_nonce_step nat
               (scripted (Return 7) (Return [x05]))
               (ready [alice; bob]) [alice; bob] eq_refl eq_refl).
  exact (conj eq_refl
           (conj eq_refl
              (conj (or_introl eq_refl)
                 (conj eq_refl
                    (proj1 H alice (ready [alice; bob])
                       (or_introl eq_refl) eq_refl))))).
Defined.

(** C7, as stated, fails: the coercion is not a truncation.  A balance of
    [2^53 + 3] wei, which truncates to [2^53 + 2], is written as
    [2^53 + 4], more than was read. *)
Lemma balance_gauge_not_truncated_counterexample :
  truncate_to_number big_balance = 9007199254740994
  /\ filter is_balances_set
       (emitted (main (scripted (Return big_balance) (Throw timeout))
                   (ready [alice])))
     = [BalancesSet (Str "0xAA", Str "alice") (Finite false 2251799813685249 2)]
  /\ to_Z (Finite false 2251799813685249 2) = Some 9007199254740996
  /\ truncate_to_number big_balance < big_balance < 9007199254740996
  /\ to_Z (Finite false 2251799813685249 2)
     <> Some (truncate_to_number big_balance).
Proof. vm_compute. repeat split. discriminate. Qed.

(** C7, amended.  A balance that was read is written to the balances
    gauge, under the account's (address, nickname), as the Number
    nearest to it: [parseInt] of its decimal digits.  That is the balance
    itself up to [2^53]; beyond, and below [2^1024 - 2^970], it is an
    integer off by at most one part in [2^53], above or below; from
    [2^1024 - 2^970] on it is the infinity of the balance's sign, which
    no 256-bit balance reaches.  A balance of [10^18] is written as
    [10^18]. *)
Theorem balance_gauge_value :
  forall (World : Type) (rpc : Provider World) (account : value)
         (m : Machine World) (b : BigNumber) (w : World),
    coercible account = true ->
    getBalance rpc (address_of account) (world m) = (Return b, w) ->
    filter is_balances_set (emitted (account_step rpc account m))
    = [BalancesSet (address_of account, nickname_of account)
         (parseInt (BigNumber_toString b))]
    /\ balances (metrics (final (account_step rpc account m)))
         (address_of account, nickname_of account)
       = Some (parseInt (BigNumber_toString b))
    /\ parseInt (BigNumber_toString b) = of_Z b
    /\ (Z.abs b <= 2 ^ 53 -> to_Z (of_Z b) = Some b)
    /\ ((Z.abs b < overflow_point)%Z ->
        exists v, to_Z (of_Z b) = Some v
                  /\ 2 ^ 53 * Z.abs (v - b) <= Z.abs b)
    /\ (overflow_point <= Z.abs b -> of_Z b = Infinity (b <? 0)%Z)
    /\ (max_uint256 < overflow_point)%Z
    /\ to_Z (of_Z 1000000000000000000) = Some 1000000000000000000.
Proof.
  intros World rpc account m b w Hc Hb.
  rewrite parseInt_toString.
  split; [| split; [| split; [reflexivity |
                     split; [apply of_Z_exact |
                     split; [| split; [apply of_Z_overflow |
                                       split; reflexivity]]]]]].
  3: { intros Hn. destruct (of_Z_finite b Hn) as [v Hv].
       exists v. split; [exact Hv | now apply of_Z_near]. }
  - rewrite (account_step_balances_set rpc account m Hc). now rewrite Hb.
  - destruct (call rpc (nonce_request account) w) as [res2 w2] eqn:Hn.
    destruct (account_step_metrics rpc account m Hc (Return b) w res2 w2 Hb Hn)
      as (HB & _).
    rewrite HB. apply MetricFacts.gauge_set_lookup.
Qed.

(** Alice's balance is [10^18] wei: the gauge shows [10^18], and no nonce
    gauge is written. *)
Lemma balance_gauge_value_witness :
  coercible alice = true
  /\ getBalance (scripted (Return 1000000000000000000) (Return [x05]))
       (address_of alice) (world (ready [alice]))
     = (Return 1000000000000000000, 1%nat)
  /\ balances
       (metrics (final (account_step
                          (scripted (Return 1000000000000000000) (Return [x05]))
                          alice (ready [alice]))))
       (Str "0xAA", Str "alice")
     = Some (parseInt (BigNumber_toString 1000000000000000000))
  /\ parseInt (BigNumber_toString 1000000000000000000)
     = of_Z 1000000000000000000
  /\ (Z.abs 1000000000000000000 < overflow_point)%Z
  /\ (exists v, to_Z (of_Z 1000000000000000000) = Some v
                /\ 2 ^ 53 * Z.abs (v - 1000000000000000000)
                   <= Z.abs 1000000000000000000)
  /\ to_Z (of_Z 1000000000000000000) = Some 1000000000000000000.
Proof.
  pose (H := balance_gauge_value nat
               (scripted (Return 1000000000000000000) (Return [x05]))
               alice (ready [alice]) 1000000000000000000 1%nat
               eq_refl eq_refl).
  exact (conj eq_refl
           (conj eq_refl
              (conj (proj1 (proj2 H))
                 (conj (proj1 (proj2 (proj2 H)))
                    (conj eq_refl
                       (conj (proj1 (proj2 (proj2 (proj2 (proj2 H)))) eq_refl)
                          (proj2 (proj2 (proj2 (proj2 (proj2 (proj2 (proj2 H))))))))))))).
Defined.

(** C8.  Bob's scenario.  The accounts are
    [[{address:"0xBB", nickname:"bob", safe:true}]], every balance read
    is rejected and every call answers the byte [0x05].  Then one tick
    returns, counts exactly one more error under (balances, getBalance),
    and sets the nonce gauge of (0xBB, bob) to the Number 5; it writes no
    balance gauge and counts no nonce error. *)
Theorem bob_scenario :
  forall (World : Type) (rpc : Provider World) (m : Machine World),
    state_accounts m = Arr [bob] ->
    (forall a w, failed (fst (getBalance rpc a w)) = true) ->
    (forall tx w, fst (call rpc tx w) = Return [x05]) ->
    Json.parse bob_text = Return (Arr [bob])
    /\ outcome (main rpc m) = Return tt
    /\ unexpectedRpcErrors (metrics (final (main rpc m))) ("balances", "getBalance")
       = unexpectedRpcErrors (metrics m) ("balances", "getBalance") + 1
    /\ safeNonces (metrics (final (main rpc m))) (Str "0xBB", Str "bob")
       = Some (of_Z 5)
    /\ to_Z (of_Z 5) = Some 5
    /\ balances (metrics (final (main rpc m))) = balances (metrics m)
    /\ unexpectedRpcErrors (metrics (final (main rpc m))) ("safeNonce", "getSafeNonce")
       = unexpectedRpcErrors (metrics m) ("safeNonce", "getSafeNonce").
Proof.
  intros World rpc m Hst Hbal Hcall.
  split; [reflexivity |].
  rewrite (main_run rpc m [bob] Hst).
  rewrite for_of_cons by now apply account_step_returns.
  cbv [outcome final for_of ret fst snd].
  split; [reflexivity |].
  destruct (getBalance rpc (address_of bob) (world m)) as [res w] eqn:Hb.
  destruct (call rpc (nonce_request bob) w) as [res2 w2] eqn:Hn.
  pose proof (Hbal (address_of bob) (world m)) as Hres. rewrite Hb in Hres.
  pose proof (Hcall (nonce_request bob) w) as Hres2. rewrite Hn in Hres2.
  simpl in Hres, Hres2. subst res2.
  destruct res as [b | e]; [discriminate |].
  destruct (account_step_metrics rpc bob m eq_refl _ _ _ _ Hb Hn)
    as (HB & HN & HC).
  cbv [final fst snd] in HB, HN, HC. rewrite HB, HN, HC.
  change (is_safe bob) with true. cbv iota. simpl nonce_fetch. cbv iota.
  repeat split.
Qed.

Lemma bob_scenario_witness :
  state_accounts (ready [bob]) = Arr [bob]
  /\ (forall a w,
        failed (fst (getBalance (scripted (Throw timeout) (Return [x05])) a w))
        = true)
  /\ (forall tx w,
        fst (call (scripted (Throw timeout) (Return [x05])) tx w) = Return [x05])
  /\ unexpectedRpcErrors
       (metrics (final (main (scripted (Throw timeout) (Return [x05]))
                          (ready [bob]))))
       ("balances", "getBalance")
     = unexpectedRpcErrors (metrics (ready [bob])) ("balances", "getBalance") + 1
  /\ safeNonces
       (metrics (final (main (scripted (Throw timeout) (Return [x05]))
                          (ready [bob]))))
       (Str "0xBB", Str "bob")
     = Some (of_Z 5).
Proof.
  pose (H := bob_scenario nat (scripted (Throw timeout) (Return [x05]))
               (ready [bob]) eq_refl
               (fun _ _ => eq_refl) (fun _ _ => eq_refl)).
  exact (conj eq_refl
           (conj (fun _ _ => eq_refl)
              (conj (fun _ _ => eq_refl)
                 (conj (proj1 (proj2 (proj2 H)))
                    (proj1 (proj2 (proj2 (proj2 H)))))))).
Defined.

(** C9.  The accounts are read, never written.  A tick leaves the
    accounts (and the options) of the machine as it found them, whether
    it returns or throws; so does any number of scheduled ticks; and over
    accounts that have properties every one of those ticks makes its
    requests in the order of the list. *)
Theorem accounts_are_read_only :
  forall (World : Type) (rpc : Provider World) (m : Machine World),
    state_accounts (final (main rpc m)) = state_accounts m
    /\ options_accounts (final (main rpc m)) = options_accounts m
    /\ (forall n, state_accounts (final (ticks rpc n m)) = state_accounts m)
    /\ (forall accounts n,
          state_accounts m = Arr accounts ->
          forallb coercible accounts = true ->
          requests (emitted (ticks rpc n m))
          = List.concat (repeat (flat_map requests_for accounts) n)).
Proof.
  intros World rpc m.
  split; [apply main_frame |]. split; [apply main_frame |].
  split; [intros n; apply ticks_frame |].
  intros accounts n Hst Hok. now apply ticks_requests.
Qed.

(** Three ticks over Alice and Bob, every request rejected. *)
Lemma accounts_are_read_only_witness :
  state_accounts (ready [alice; bob]) = Arr [alice; bob]
  /\ forallb coercible [alice; bob] = true
  /\ state_accounts (final (ticks rejecting 3 (ready [alice; bob])))
     = state_accounts (ready [alice; bob])
  /\ requests (emitted (ticks rejecting 3 (ready [alice; bob])))
     = List.concat (repeat (flat_map requests_for [alice; bob]) 3).
Proof.
  pose (H := accounts_are_read_only nat rejecting (ready [alice; bob])).
  exact (conj eq_refl
           (conj eq_refl
              (conj (proj1 (proj2 (proj2 H)) 3%nat)
                 (proj2 (proj2 (proj2 H)) [alice; bob] 3%nat eq_refl eq_refl)))).
Defined.

(** C10.  The nonce step is gated on truthiness.  The loop body of an
    account makes the nonce call exactly when [ToBoolean] of its [safe]
    property is true, not when the property is the boolean [true]: the
    string [false], the number 1, an empty array are truthy and get the
    call; [false], zero (also one that underflows to it), [null], the
    empty string and a missing property do not. *)
Theorem nonce_step_gated_on_truthiness :
  forall (World : Type) (rpc : Provider World) (account : value)
         (m : Machine World),
    coercible account = true ->
    requests (emitted (account_step rpc account m))
    = GetBalanceRequest (address_of account)
      :: (if ToBoolean (prop account "safe")
          then [CallRequest {| to := address_of account; data := "0xaffed0e0" |}]
          else [])
    /\ ToBoolean (Str "false") = true
    /\ ToBoolean (Num (of_Z 1)) = true
    /\ ToBoolean (Bool false) = false
    /\ ToBoolean (Num (of_Z 0)) = false
    /\ ToBoolean Null = false
    /\ ToBoolean Undefined = false
    /\ prop (Obj [("address", Str "0xAA"); ("nickname", Str "alice")]) "safe"
       = Undefined
    /\ map safe_in
         ["[{'address':'0xAA','nickname':'alice','safe':'false'}]";
          "[{'address':'0xAA','nickname':'alice','safe':1}]";
          "[{'address':'0xAA','nickname':'alice','safe':[]}]";
          "[{'address':'0xAA','nickname':'alice','safe':true}]";
          "[{'address':'0xAA','nickname':'alice','safe':false}]";
          "[{'address':'0xAA','nickname':'alice','safe':0}]";
          "[{'address':'0xAA','nickname':'alice','safe':-0.0}]";
          "[{'address':'0xAA','nickname':'alice','safe':1e-400}]";
          "[{'address':'0xAA','nickname':'alice','safe':null}]";
          "[{'address':'0xAA','nickname':'alice','safe':''}]";
          "[{'address':'0xAA','nickname':'alice'}]"]
       = [Some true; Some true; Some true; Some true;
          Some false; Some false; Some false; Some false;
          Some false; Some false; Some false].
Proof.
  intros World rpc account m Hc.
  split; [exact (account_step_requests rpc account m Hc) |].
  vm_compute. repeat split.
Qed.

(** An account whose [safe] is the string [false]: the call is made. *)
Lemma nonce_step_gated_on_truthiness_witness :
  coercible (account_record "0xAA" "alice" (Str "false")) = true
  /\ requests
       (emitted (account_step rejecting (account_record "0xAA" "alice" (Str "false"))
                   (ready [account_record "0xAA" "alice" (Str "false")])))
     = [GetBalanceRequest (Str "0xAA");
        CallRequest {| to := Str "0xAA"; data := "0xaffed0e0" |}].
Proof.
  exact (conj eq_refl
           (proj1 (nonce_step_gated_on_truthiness nat rejecting
                     (account_record "0xAA" "alice" (Str "false"))
                     (ready [account_record "0xAA" "alice" (Str "false")])
                     eq_refl))).
Defined.

(* ================================================================== *)
(** * Facts about traces *)
(* ================================================================== *)

Module TraceFacts.

Import JsNumber Js Ethers BalanceMon Trace StepFacts.

Local Open Scope string_scope.

Section Tidy.

Context {World : Type} (rpc : Provider World).

Lemma replay_app (evs1 evs2 : list event) (x : Metrics) :
  replay (evs1 ++ evs2) x = replay evs2 (replay evs1 x).
Proof. apply fold_left_app. Qed.

Lemma emitted_bind {A B} (c : M World A) (k : A -> M World B) (m : Machine World) :
  emitted (bind c k m)
  = (emitted (c m)
     ++ match outcome (c m) with
        | Return a => emitted (k a (final (c m)))
        | Throw _ => []
        end)%list.
Proof.
  unfold bind. destruct (c m) as [[[a | e] m1] e1]; cbv [outcome final emitted fst snd].
  - now destruct (k a m1) as [[r m2] e2].
  - now rewrite app_nil_r.
Qed.

Lemma tidy_ret {A} (a : A) : tidy (World := World) (ret a).
Proof. intros m. now split. Qed.

Lemma tidy_lift {A} (c : completion A) : tidy (World := World) (lift c).
Proof. intros m. now split. Qed.

Lemma tidy_bind {A B} (c : M World A) (k : A -> M World B) :
  tidy c -> (forall a, tidy (k a)) -> tidy (bind c k).
Proof.
  intros Hc Hk m. destruct (Hc m) as (H1 & H6).
  unfold bind. destruct (c m) as [[[a | e] m1] e1];
    cbv [final emitted fst snd] in *; [| now split].
  destruct (Hk a m1) as (K1 & K6).
  destruct (k a m1) as [[r m2] e2]. cbv [final emitted fst snd] in *.
  rewrite replay_app, forallb_app, <- H1, H6, K6. now split.
Qed.

Lemma tidy_try_catch (body : M World unit) (handler : exn -> M World unit) :
  tidy body -> (forall e, tidy (handler e)) -> tidy (try_catch body handler).
Proof.
  intros Hc Hk m. destruct (Hc m) as (H1 & H6).
  unfold try_catch. destruct (body m) as [[[a | e] m1] e1];
    cbv [final emitted fst snd] in *; [now split |].
  destruct (Hk e m1) as (K1 & K6).
  destruct (handler e m1) as [[r m2] e2]. cbv [final emitted fst snd] in *.
  rewrite replay_app, forallb_app, <- H1, H6, K6. now split.
Qed.

Lemma tidy_logger_info (msg : string) (fields : list (string * logged)) :
  tidy (World := World) (logger_info msg fields).
Proof. intros m. now split. Qed.

Lemma tidy_balances_set (l : account_labels) (v : number) :
  tidy (World := World) (balances_set l v).
Proof. intros m. now split. Qed.

Lemma tidy_safeNonces_set (l : account_labels) (v : number) :
  tidy (World := World) (safeNonces_set l v).
Proof. intros m. now split. Qed.

Lemma tidy_inc_balances :
  tidy (World := World) (unexpectedRpcErrors_inc balances_error).
Proof. intros m. now split. Qed.

Lemma tidy_inc_safeNonce :
  tidy (World := World) (unexpectedRpcErrors_inc safeNonce_error).
Proof. intros m. now split. Qed.

Lemma tidy_rpc_getBalance (address : value) : tidy (rpc_getBalance rpc address).
Proof.
  intros m. unfold rpc_getBalance.
  destruct (getBalance rpc address (world m)) as [res w]. now split.
Qed.

Lemma tidy_rpc_call (target : value) :
  tidy (rpc_call rpc {| to := target; data := nonce_selector |}).
Proof.
  intros m. unfold rpc_call.
  destruct (call rpc {| to := target; data := nonce_selector |} (world m))
    as [res w].
  now split.
Qed.

Ltac tidy_step :=
  first [ apply tidy_logger_info | apply tidy_balances_set
        | apply tidy_safeNonces_set
        | apply tidy_inc_balances | apply tidy_inc_safeNonce
        | apply tidy_rpc_getBalance | apply tidy_rpc_call
        | apply tidy_lift | apply tidy_ret
        | apply tidy_try_catch | apply tidy_bind | intro ].

Lemma tidy_balance_step (account : value) : tidy (balance_step rpc account).
Proof. unfold balance_step. repeat tidy_step. Qed.

Lemma tidy_nonce_step (account : value) : tidy (nonce_step rpc account).
Proof. unfold nonce_step. repeat tidy_step. Qed.

Lemma tidy_account_step (account : value) : tidy (account_step rpc account).
Proof.
  unfold account_step. apply tidy_bind; [apply tidy_balance_step | intros _].
  apply tidy_bind; [apply tidy_lift | intros safe].
  destruct (ToBoolean safe); [apply tidy_nonce_step | apply tidy_ret].
Qed.

Lemma tidy_for_of (items : list value) (body : value -> M World unit) :
  (forall x, tidy (body x)) -> tidy (for_of items body).
Proof.
  intros Hb. induction items as [| x items IH]; [apply tidy_ret |].
  simpl. apply tidy_bind; [apply Hb | intros _; exact IH].
Qed.

(** A tick is tidy, whatever the state holds and whatever it ends in. *)
Lemma tidy_main : tidy (main rpc).
Proof.
  intros m. unfold main.
  apply (tidy_bind (lift (iterate (state_accounts m)))
           (fun items => for_of items (account_step rpc))).
  - apply tidy_lift.
  - intros items. apply tidy_for_of. exact tidy_account_step.
Qed.

End Tidy.

(** What replaying a trace does to a counter and to the gauges. *)
Lemma replay_counter (evs : list event) :
  forall (x : Metrics) (l : error_labels),
    unexpectedRpcErrors (replay evs x) l
    = unexpectedRpcErrors x l + increments l evs.
Proof.
  induction evs as [| e evs IH]; intros x l; simpl; [lia |].
  unfold replay in IH. rewrite IH.
  destruct e; simpl; try reflexivity.
  unfold counter_inc. destruct (error_labels_eqb labels l); lia.
Qed.

Lemma increments_nonneg (l : error_labels) (evs : list event) :
  0 <= increments l evs.
Proof.
  induction evs as [| e evs IH]; simpl; [lia |].
  destruct e; try exact IH. destruct (error_labels_eqb labels l); lia.
Qed.

End TraceFacts.

Module AbortFacts.

Import JsNumber Js Ethers BalanceMon Trace StepFacts TickFacts TraceFacts.

Local Open Scope string_scope.

Section Any.

Context {World : Type} (rpc : Provider World).

(** Every path through the loop body, by cases on the account, on the
    answers and on the flag. *)
Ltac step_eval :=
  cbv beta iota zeta delta
    [account_step balance_step nonce_step try_catch bind lift Get
     rpc_getBalance rpc_call balances_set safeNonces_set
     unexpectedRpcErrors_inc logger_info with_metrics emit ret
     outcome final emitted fst snd world app filter negb is_rpc].

Ltac step_cases account :=
  step_eval;
  destruct (coercible account); step_eval;
  [ match goal with
    | |- context [getBalance rpc ?a ?w] =>
        destruct (getBalance rpc a w) as [[? | ?] ?]
    end;
    step_eval;
    (destruct (ToBoolean (prop account "safe")); step_eval;
     [ match goal with
       | |- context [call rpc ?tx ?w] =>
           destruct (call rpc tx w) as [[[| ? ?] | ?] ?]
       end;
       step_eval
     | ])
  | ].

Lemma account_step_null (account : value) (m : Machine World) :
  coercible account = false ->
  outcome (account_step rpc account m) = Throw TypeError
  /\ emitted (account_step rpc account m)
     = [LoggerInfo "got unexpected RPC error"
          [("section", LogValue (Str "balances"));
           ("name", LogValue (Str "getBalance"));
           ("err", LogError TypeError)];
        UnexpectedRpcErrorsInc balances_error].
Proof.
  intros Hc.
  unfold account_step, balance_step, try_catch, bind, lift, Get.
  rewrite Hc. now split.
Qed.

(** A gauge write of the loop body is under the labels of its account,
    which then has properties; a write of the nonce gauge is made for an
    account whose [safe] is truthy. *)
Lemma account_step_writes (account : value) (m : Machine World) (e : event) :
  In e (emitted (account_step rpc account m)) ->
  match e with
  | BalancesSet l _ => l = labels_of account /\ coercible account = true
  | SafeNoncesSet l _ =>
      l = labels_of account /\ coercible account = true /\ is_safe account = true
  | _ => True
  end.
Proof.
  unfold is_safe.
  step_cases account; intros H;
    repeat (destruct H as [<- | H];
            [first [exact I | now repeat split] |]);
    now destruct H.
Qed.

Lemma account_step_well_logged (account : value) (m : Machine World) :
  well_logged (filter (fun e => negb (is_rpc e))
                 (emitted (account_step rpc account m))) = true.
Proof.
  step_cases account; cbn;
    rewrite ?MetricFacts.value_eqb_refl, ?MetricFacts.number_eqb_refl;
    reflexivity.
Qed.

(** An event of the loop is an event of the body on one of the items. *)
Lemma for_of_events (body : value -> M World unit) (items : list value) (e : event) :
  forall m,
    In e (emitted (for_of items body m)) ->
    exists x m', In x items /\ In e (emitted (body x m')).
Proof.
  induction items as [| x items IH]; intros m H; [destruct H |].
  simpl for_of in H. rewrite emitted_bind in H. apply in_app_or in H as [H | H].
  - exists x, m. split; [now left | exact H].
  - destruct (outcome (body x m)); [| destruct H].
    destruct (IH _ H) as (y & m' & Hy & He). exists y, m'. split; [now right | exact He].
Qed.

Lemma main_events (m : Machine World) (e : event) :
  In e (emitted (main rpc m)) ->
  exists items x m',
    iterate (state_accounts m) = Return items
    /\ In x items /\ In e (emitted (account_step rpc x m')).
Proof.
  unfold main. rewrite emitted_bind. unfold lift at 1 2 3.
  cbv [outcome final emitted fst snd]. simpl app.
  destruct (iterate (state_accounts m)) as [items | err]; [| intros []].
  intros H. apply for_of_events in H as (x & m' & Hx & He).
  exists items, x, m'. now repeat split.
Qed.

(** A loop whose first items return goes on with the others. *)
Lemma for_of_app (body : value -> M World unit) (l1 l2 : list value) :
  forall m,
    outcome (for_of l1 body m) = Return tt ->
    for_of (l1 ++ l2) body m =
      (outcome (for_of l2 body (final (for_of l1 body m))),
       final (for_of l2 body (final (for_of l1 body m))),
       (emitted (for_of l1 body m)
        ++ emitted (for_of l2 body (final (for_of l1 body m))))%list).
Proof.
  induction l1 as [| x l1 IH]; intros m H.
  - simpl. unfold ret. cbv [outcome final emitted fst snd].
    now destruct (for_of l2 body m) as [[r m2] e2].
  - simpl app. simpl for_of in *. unfold bind in *.
    destruct (body x m) as [[[[] | e] m1] e1];
      cbv [outcome final emitted fst snd] in *; [| discriminate].
    specialize (IH m1).
    destruct (for_of l1 body m1) as [[r1 m2] e2].
    cbv [outcome final emitted fst snd] in *. subst r1.
    rewrite (IH eq_refl).
    destruct (for_of l2 body m2) as [[r3 m3] e3]. cbv [fst snd].
    now rewrite app_assoc.
Qed.

Lemma well_logged_app (evs1 evs2 : list event) :
  well_logged evs1 = true -> well_logged (evs1 ++ evs2) = well_logged evs2.
Proof.
  remember (List.length evs1) as n eqn:Hn.
  revert evs1 Hn. induction n as [n IH] using lt_wf_ind. intros evs1 Hn H.
  destruct evs1 as [| e1 [| e2 rest]]; [reflexivity | now destruct e1 |].
  destruct e1; try discriminate. simpl in H |- *.
  apply andb_prop in H as [Ha Hr]. rewrite Ha. simpl.
  apply (IH (List.length rest)); [subst n; simpl; lia | reflexivity | exact Hr].
Qed.

Lemma loop_well_logged (items : list value) :
  forall m,
    well_logged (filter (fun e => negb (is_rpc e))
                   (emitted (for_of items (account_step rpc) m))) = true.
Proof.
  induction items as [| x items IH]; intros m; [reflexivity |].
  simpl for_of. rewrite emitted_bind, filter_app.
  rewrite well_logged_app by apply account_step_well_logged.
  destruct (outcome (account_step rpc x m)); [apply IH | reflexivity].
Qed.

(** The loop body looks at its account, not at the accounts in the state. *)
Lemma account_step_with_accounts (account v : value) (m : Machine World) :
  account_step rpc account (with_accounts m v)
  = (outcome (account_step rpc account m),
     with_accounts (final (account_step rpc account m)) v,
     emitted (account_step rpc account m)).
Proof.
  destruct m as [o s x w]. unfold with_accounts.
  cbv beta iota delta [options_accounts state_accounts metrics world].
  step_cases account; reflexivity.
Qed.

Lemma for_of_with_accounts (items : list value) (v : value) :
  forall m,
    for_of items (account_step rpc) (with_accounts m v)
    = (outcome (for_of items (account_step rpc) m),
       with_accounts (final (for_of items (account_step rpc) m)) v,
       emitted (for_of items (account_step rpc) m)).
Proof.
  induction items as [| x items IH]; intros m; [reflexivity |].
  simpl for_of. unfold bind. rewrite account_step_with_accounts.
  destruct (account_step rpc x m) as [[[[] | e] m1] e1];
    cbv [outcome final emitted fst snd]; [| reflexivity].
  rewrite IH. now destruct (for_of items (account_step rpc) m1) as [[r m2] e2].
Qed.

Lemma main_well_logged (m : Machine World) :
  well_logged (filter (fun e => negb (is_rpc e)) (emitted (main rpc m))) = true.
Proof.
  unfold main. rewrite emitted_bind. unfold lift at 1 2 3.
  cbv [outcome final emitted fst snd]. simpl app.
  destruct (iterate (state_accounts m)); [apply loop_well_logged | reflexivity].
Qed.

End Any.

(** In a well-logged trace the log records and the metric events pair up. *)
Lemma well_logged_counts (evs : list event) :
  well_logged evs = true ->
  List.length (filter is_log evs)
  = List.length (filter (fun e => negb (is_log e)) evs).
Proof.
  remember (List.length evs) as n eqn:Hn.
  revert evs Hn. induction n as [n IH] using lt_wf_ind. intros evs Hn H.
  destruct evs as [| e1 [| e2 rest]]; [reflexivity | now destruct e1 |].
  destruct e1; try discriminate. simpl in H.
  apply andb_prop in H as [Ha Hr].
  assert (He : is_log e2 = false) by (destruct e2; try reflexivity; discriminate).
  simpl. rewrite He. simpl. f_equal.
  apply (IH (List.length rest)); [subst n; simpl; lia | reflexivity | exact Hr].
Qed.

Lemma error_labels_eqb_eq (a b : error_labels) :
  error_labels_eqb a b = true -> a = b.
Proof.
  destruct a as [a1 a2], b as [b1 b2]. unfold error_labels_eqb. simpl.
  intros H. apply andb_prop in H as [H1 H2].
  apply String.eqb_eq in H1, H2. now subst.
Qed.

(** A trace in the repertoire counts under its two label sets only. *)
Lemma increments_outside (l : error_labels) (evs : list event) :
  forallb in_repertoire evs = true ->
  l <> balances_error -> l <> safeNonce_error ->
  increments l evs = 0.
Proof.
  intros H Hb Hs. induction evs as [| e evs IH]; [reflexivity |].
  simpl in H. apply andb_prop in H as [He H]. specialize (IH H).
  destruct e; simpl; try exact IH.
  destruct (error_labels_eqb labels l) eqn:Hl; [| exact IH].
  apply error_labels_eqb_eq in Hl. subst labels. simpl in He.
  apply orb_prop in He as [He | He]; apply error_labels_eqb_eq in He; congruence.
Qed.

End AbortFacts.

(* ================================================================== *)
(** * Further properties of a tick *)
(* ================================================================== *)

Import Trace Cases TraceFacts AbortFacts.

(** X1.  An item without properties aborts the tick.  When the accounts
    hold [null] (or [undefined]) after some accounts that have
    properties, the tick serves those accounts as usual; at the bad item
    it makes no request, yet counts an error under
    (balances, getBalance), the [TypeError] of reading [address] being
    caught like a failed read; then the read of [safe], which is outside
    the [try], throws the [TypeError] out of the tick, and no later
    account is served. *)
Theorem null_account_aborts_tick :
  forall (World : Type) (rpc : Provider World) (m : Machine World)
         (before : list value) (x : value) (after : list value),
    state_accounts m = Arr (before ++ x :: after) ->
    forallb coercible before = true ->
    coercible x = false ->
    outcome (main rpc m) = Throw TypeError
    /\ requests (emitted (main rpc m)) = flat_map requests_for before
    /\ exists evs,
         emitted (main rpc m)
         = (evs ++ [LoggerInfo "got unexpected RPC error"
                      [("section", LogValue (Str "balances"));
                       ("name", LogValue (Str "getBalance"));
                       ("err", LogError TypeError)];
                    UnexpectedRpcErrorsInc ("balances", "getBalance")])%list.
Proof.
  intros World rpc m before x after Hst Hok Hx.
  rewrite (main_run rpc m _ Hst).
  rewrite for_of_app by now apply loop_returns.
  set (m1 := final (for_of before (account_step rpc) m)).
  pose proof (loop_requests rpc before Hok m) as Hreq.
  destruct (account_step_null rpc x m1 Hx) as [Ho He].
  simpl for_of. unfold bind.
  destruct (account_step rpc x m1) as [[r m2] e2].
  cbv [outcome final emitted fst snd] in *. subst r e2.
  split; [reflexivity |]. split.
  - rewrite requests_app, Hreq. simpl. apply app_nil_r.
  - eexists. reflexivity.
Qed.

(** Alice, then [null], then Bob: Alice is served, Bob is not. *)
Lemma null_account_aborts_tick_witness :
  state_accounts (ready [alice; Null; bob]) = Arr ([alice] ++ Null :: [bob])
  /\ forallb coercible [alice] = true
  /\ coercible Null = false
  /\ outcome (main counting (ready [alice; Null; bob])) = Throw TypeError
  /\ requests (emitted (main counting (ready [alice; Null; bob])))
     = [GetBalanceRequest (Str "0xAA")].
Proof.
  pose (H := null_account_aborts_tick nat counting (ready [alice; Null; bob])
               [alice] Null [bob] eq_refl eq_refl eq_refl).
  exact (conj eq_refl
           (conj eq_refl (conj eq_refl (conj (proj1 H) (proj1 (proj2 H)))))).
Defined.

(** X3.  Error counters only grow, and only two of them.  Over a tick,
    whatever the state holds, each series of the error counter grows by
    the number of increments the tick made under its labels, so none goes
    down; and a series under any labels other than
    (balances, getBalance) and (safeNonce, getSafeNonce) stays as it is. *)
Theorem tick_counters_only_grow :
  forall (World : Type) (rpc : Provider World) (m : Machine World)
         (l : error_labels),
    unexpectedRpcErrors (metrics (final (main rpc m))) l
    = unexpectedRpcErrors (metrics m) l + increments l (emitted (main rpc m))
    /\ unexpectedRpcErrors (metrics m) l
       <= unexpectedRpcErrors (metrics (final (main rpc m))) l
    /\ (l <> ("balances", "getBalance") ->
        l <> ("safeNonce", "getSafeNonce") ->
        unexpectedRpcErrors (metrics (final (main rpc m))) l
        = unexpectedRpcErrors (metrics m) l).
Proof.
  intros World rpc m l.
  destruct (tidy_main rpc m) as (H1 & H6).
  rewrite H1, replay_counter.
  pose proof (increments_nonneg l (emitted (main rpc m))) as Hn.
  split; [reflexivity |]. split; [lia |].
  intros Hb Hs. rewrite (increments_outside l _ H6 Hb Hs). lia.
Qed.

(** Bob's read and call are both rejected: his two series grow by one,
    a third series does not move. *)
Lemma tick_counters_only_grow_witness :
  ("other", "series") <> ("balances", "getBalance")
  /\ ("other", "series") <> ("safeNonce", "getSafeNonce")
  /\ unexpectedRpcErrors (metrics (final (main rejecting (ready [bob]))))
       ("other", "series")
     = unexpectedRpcErrors (metrics (ready [bob])) ("other", "series")
  /\ unexpectedRpcErrors (metrics (final (main rejecting (ready [bob]))))
       ("balances", "getBalance")
     = unexpectedRpcErrors (metrics (ready [bob])) ("balances", "getBalance")
       + increments ("balances", "getBalance")
           (emitted (main rejecting (ready [bob]))).
Proof.
  assert (Hb : ("other", "series") <> ("balances", "getBalance")) by discriminate.
  assert (Hs : ("other", "series") <> ("safeNonce", "getSafeNonce")) by discriminate.
  exact (conj Hb
           (conj Hs
              (conj (proj2 (proj2 (tick_counters_only_grow nat rejecting
                                     (ready [bob]) ("other", "series"))) Hb Hs)
                 (proj1 (tick_counters_only_grow nat rejecting
                           (ready [bob]) ("balances", "getBalance")))))).
Defined.

(** X4.  A tick writes gauges for its accounts only.  Whatever the
    provider answers and however the tick ends, every gauge write of a
    tick is made for an item of the accounts array that has properties,
    under the labels that item gives: its [address] and its [nickname].
    A write of the nonce gauge is made only for an item whose [safe] is
    truthy. *)
Theorem tick_gauge_writes_name_accounts :
  forall (World : Type) (rpc : Provider World) (m : Machine World)
         (accounts : list value) (e : event),
    state_accounts m = Arr accounts ->
    In e (emitted (main rpc m)) ->
    is_gauge_write e = true ->
    exists account,
      In account accounts
      /\ coercible account = true
      /\ ((exists v,
             e = BalancesSet (address_of account, nickname_of account) v)
          \/ (is_safe account = true
              /\ exists v,
                   e = SafeNoncesSet (address_of account, nickname_of account) v)).
Proof.
  intros World rpc m accounts e Hst Hin He.
  apply main_events in Hin as (items & x & m' & Hit & Hx & Hin).
  rewrite Hst in Hit. injection Hit as <-.
  apply account_step_writes in Hin.
  exists x. split; [exact Hx |].
  destruct e as [| | | l v | l v |]; try discriminate.
  - destruct Hin as [-> Hc]. split; [exact Hc |]. left. now exists v.
  - destruct Hin as (-> & Hc & Hs). split; [exact Hc |].
    right. split; [exact Hs |]. now exists v.
Qed.

(** Bob, a safe, then Alice, against the counting provider: the write of
    the nonce gauge is Bob's. *)
Lemma tick_gauge_writes_name_accounts_witness :
  state_accounts (ready [bob; alice]) = Arr [bob; alice]
  /\ In (SafeNoncesSet (Str "0xBB", Str "bob") (of_Z 1))
       (emitted (main counting (ready [bob; alice])))
  /\ is_gauge_write (SafeNoncesSet (Str "0xBB", Str "bob") (of_Z 1)) = true
  /\ exists account,
       In account [bob; alice]
       /\ coercible account = true
       /\ ((exists v,
              SafeNoncesSet (Str "0xBB", Str "bob") (of_Z 1)
              = BalancesSet (address_of account, nickname_of account) v)
           \/ (is_safe account = true
               /\ exists v,
                    SafeNoncesSet (Str "0xBB", Str "bob") (of_Z 1)
                    = SafeNoncesSet (address_of account, nickname_of account) v)).
Proof.
  assert (Hin : In (SafeNoncesSet (Str "0xBB", Str "bob") (of_Z 1))
                  (emitted (main counting (ready [bob; alice])))).
  { vm_compute. do 5 right. left. reflexivity. }
  exact (conj eq_refl
           (conj Hin
              (conj eq_refl
                 (tick_gauge_writes_name_accounts nat counting
                    (ready [bob; alice]) [bob; alice] _ eq_refl Hin eq_refl)))).
Defined.

(** X6.  Every metric update is logged first.  Leaving the requests
    aside, the trace of a tick is a run of pairs: a log record, and right
    after it the metric update the record announces, the balance or
    nonce record naming the labels and the digits of the value written,
    the error record naming the section and the operation counted.  No
    update goes unlogged and no record stands alone, however the tick
    ends. *)
Theorem tick_logs_every_update :
  forall (World : Type) (rpc : Provider World) (m : Machine World),
    well_logged (filter (fun e => negb (is_rpc e)) (emitted (main rpc m))) = true
    /\ List.length
         (filter is_log (filter (fun e => negb (is_rpc e)) (emitted (main rpc m))))
       = List.length
           (filter (fun e => negb (is_log e))
              (filter (fun e => negb (is_rpc e)) (emitted (main rpc m)))).
Proof.
  intros World rpc m. pose proof (main_well_logged rpc m) as H.
  split; [exact H | now apply well_logged_counts].
Qed.

(** X7.  The range of a gauge value.  [parseInt] of the digits of a
    [BigNumber] is never [NaN]: below [2^1024 - 2^970] in magnitude it
    is an integer within one part in [2^53] of the number, from there on
    it is the infinity of the number's sign.  Every 256-bit balance is
    below that point. *)
Theorem gauge_value_range :
  forall b : BigNumber,
    ((Z.abs b < overflow_point)%Z ->
     exists v, to_Z (parseInt (BigNumber_toString b)) = Some v
               /\ 2 ^ 53 * Z.abs (v - b) <= Z.abs b)
    /\ (overflow_point <= Z.abs b ->
        parseInt (BigNumber_toString b) = Infinity (b <? 0)%Z)
    /\ (max_uint256 < overflow_point)%Z.
Proof.
  intros b. rewrite EthersFacts.parseInt_toString.
  split; [| split; [apply of_Z_overflow | reflexivity]].
  intros Hb. destruct (of_Z_finite b Hb) as [v Hv].
  exists v. split; [exact Hv | now apply NumberFacts.of_Z_near].
Qed.

(** The largest 256-bit balance has a finite gauge value; [2^1024] wei
    has not. *)
Lemma gauge_value_range_witness :
  (Z.abs max_uint256 < overflow_point)%Z
  /\ (exists v, to_Z (parseInt (BigNumber_toString max_uint256)) = Some v
                /\ 2 ^ 53 * Z.abs (v - max_uint256) <= Z.abs max_uint256)
  /\ overflow_point <= Z.abs (2 ^ 1024)
  /\ parseInt (BigNumber_toString (2 ^ 1024)) = Infinity (2 ^ 1024 <? 0)%Z.
Proof.
  assert (H1 : (Z.abs max_uint256 < overflow_point)%Z) by reflexivity.
  assert (H2 : overflow_point <= Z.abs (2 ^ 1024)) by (vm_compute; discriminate).
  exact (conj H1
           (conj (proj1 (gauge_value_range max_uint256) H1)
              (conj H2 (proj1 (proj2 (gauge_value_range (2 ^ 1024))) H2)))).
Defined.

(** X8.  A tick over a longer list is two ticks in a row.  When the
    first accounts all have properties, the tick over them and then
    further accounts does what the tick over the first accounts does,
    followed by what the tick over the further ones does from the
    metrics and the world the first one left: the same events in the
    same order, the same completion, the same metrics and world at the
    end.  Accounts are served one by one; nothing of one is carried to
    the next but the collaborators' state. *)
Theorem tick_over_concatenation :
  forall (World : Type) (rpc : Provider World) (m : Machine World)
         (first further : list value),
    forallb coercible first = true ->
    let one := main rpc (with_accounts m (Arr first)) in
    let two := main rpc (with_accounts (final one) (Arr further)) in
    let whole := main rpc (with_accounts m (Arr (first ++ further))) in
    outcome whole = outcome two
    /\ emitted whole = (emitted one ++ emitted two)%list
    /\ metrics (final whole) = metrics (final two)
    /\ world (final whole) = world (final two).
Proof.
  intros World rpc m first further Hok. cbv zeta.
  rewrite (main_run rpc (with_accounts m (Arr first)) first eq_refl).
  rewrite (main_run rpc (with_accounts m (Arr (first ++ further))) _ eq_refl).
  rewrite (main_run rpc (with_accounts _ (Arr further)) further eq_refl).
  rewrite !for_of_with_accounts.
  cbv [outcome final emitted fst snd].
  change (with_accounts (with_accounts ?a ?b) ?c) with (with_accounts a c).
  rewrite for_of_with_accounts.
  rewrite for_of_app by now apply loop_returns.
  cbv [outcome final emitted fst snd]. now repeat split.
Qed.

(** Alice alone, then Bob and Carol, against a provider whose answers
    change with every request. *)
Lemma tick_over_concatenation_witness :
  forallb coercible [alice] = true
  /\ emitted (main counting (with_accounts (ready []) (Arr ([alice] ++ [bob; carol]))))
     = (emitted (main counting (with_accounts (ready []) (Arr [alice])))
        ++ emitted (main counting
                      (with_accounts
                         (final (main counting
                                   (with_accounts (ready []) (Arr [alice]))))
                         (Arr [bob; carol]))))%list.
Proof.
  exact (conj eq_refl
           (proj1 (proj2 (tick_over_concatenation nat counting (ready [])
                            [alice] [bob; carol] eq_refl)))).
Defined.
